(** * GodEater1-2Fix: the patch callbacks, the ReadFile intercept and the
      initialisation sequence of [src/dllmain.cpp]

    The development follows the source file top-down:
    - [F32]      binary32 arithmetic as the callbacks use it ([f32] is
                 [float]), on the Standard Library's [SpecFloat];
    - [Mem]      the process memory the HUD callback dereferences;
    - [Hook]     the register context handed to a mid-function hook;
    - [Fix]      the globals, [readYml] and the three callbacks;
    - [Movie]    [kernelBaseDllReadFileHook];
    - [Scanner]  the signature scan of [utils.hpp];
    - [Init]     [moviesFix], the three [...Fix] installers and [Main];
    - [Examples] concrete configurations, hosts and memories.

    The properties come last, in the order of the source: the derived
    values of [readYml], the callbacks, the intercept, the scan and the
    initialisation sequence. *)

From Stdlib Require Import ZArith Lia Bool String Ascii QArith Qround SpecFloat.
From coqutil Require Import Byte Word.LittleEndianList.
From stdpp Require Import base option list gmap.

Local Open Scope Z_scope.

(** ** 32-bit unsigned integers ([u32], [DWORD], [uintptr_t] on x86) *)

Definition u32_modulus : Z := 0x100000000.

Definition u32_wrap (z : Z) : Z := z mod u32_modulus.

(** ** binary32 *)

Module F32.

Definition prec : Z := 24.
Definition emax : Z := 128.

Definition f32 : Type := spec_float.

Definition mul : f32 -> f32 -> f32 := SFmul prec emax.
Definition div : f32 -> f32 -> f32 := SFdiv prec emax.
Definition neg : f32 -> f32 := SFopp.

(** [static_cast<f32>(n)] for an unsigned [n]: round to nearest even. *)
Definition of_u32 (n : Z) : f32 := binary_normalize prec emax n 0 false.

(** The value of a finite float with the fraction dropped (toward zero). *)
Definition trunc_mag (m : positive) (e : Z) : Z :=
  match e with
  | Z0 => Zpos m
  | Zpos _ => Z.shiftl (Zpos m) e
  | Zneg _ => Z.shiftr (Zpos m) (- e)
  end.

(** Conversion of a float to [u32], as the implicit conversion in an
    assignment to a [u32] does it: the fraction is discarded; when the
    truncated value is not a [u32] the behaviour is undefined ([None]). *)
Definition to_u32 (x : f32) : option Z :=
  match x with
  | S754_zero _ => Some 0
  | S754_finite false m e =>
      let v := trunc_mag m e in
      if v <? u32_modulus then Some v else None
  | S754_finite true m e =>
      if trunc_mag m e =? 0 then Some 0 else None
  | S754_infinity _ | S754_nan => None
  end.

Definition sign_bit (s : bool) : Z := if s then 0x80000000 else 0.

(** The object representation of a float: sign, biased exponent,
    fraction.  [SpecFloat] has one NaN, without sign or payload; it is
    given the pattern of the x86 default NaN, so the bits of a NaN that an
    operation has negated are not what this function says. *)
Definition bits (x : f32) : Z :=
  match x with
  | S754_zero s => sign_bit s
  | S754_infinity s => sign_bit s + 0x7F800000
  | S754_nan => 0xFFC00000
  | S754_finite s m e =>
      if 0x800000 <=? Zpos m
      then sign_bit s + (e + 150) * 0x800000 + (Zpos m - 0x800000)
      else sign_bit s + Zpos m
  end.

(** [x] is a binary32 number: its mantissa has the digits its exponent
    asks for and the exponent is in range. *)
Definition valid (x : f32) : Prop := valid_binary prec emax x = true.

(** The rational a finite float stands for. *)
Definition to_Q (x : f32) : option Q :=
  match x with
  | S754_zero _ => Some 0%Q
  | S754_finite s m e =>
      Some ((if s then -1 else 1) * inject_Z (Zpos m) * Qpower 2 e)%Q
  | S754_infinity _ | S754_nan => None
  end.

(** [x] is finite and stands for the rational [q]. *)
Definition exactly (x : f32) (q : Q) : Prop :=
  match to_Q x with
  | Some v => (v == q)%Q
  | None => False
  end.

(** The literals of the source. *)
Definition two : f32 := Eval vm_compute in of_u32 2.            (* 2.0f *)
Definition neg_one : f32 := Eval vm_compute in neg (of_u32 1).  (* -1.0f *)
Definition sixteen_ninths : f32 :=                              (* (16.0f / 9.0f) *)
  Eval vm_compute in div (of_u32 16) (of_u32 9).

End F32.

Abbreviation f32 := F32.f32.

(** ** Memory of the host process *)

Module Mem.

(** Mapped bytes by address; an address absent from the map is not
    accessible, and touching it faults. *)
Abbreviation memory := (gmap Z byte).

Fixpoint load_bytes (m : memory) (a : Z) (n : nat) : option (list byte) :=
  match n with
  | O => Some []
  | S n' =>
      b ← m !! a;
      bs ← load_bytes m (a + 1) n';
      Some (b :: bs)
  end.

Fixpoint store_bytes (m : memory) (a : Z) (bs : list byte) : memory :=
  match bs with
  | [] => m
  | b :: bs' => <[a := b]> (store_bytes m (a + 1) bs')
  end.

(** [*reinterpret_cast<u32*>(a)] as an rvalue. *)
Definition load_u32 (m : memory) (a : Z) : option Z :=
  le_combine <$> load_bytes m a 4.

(** [*reinterpret_cast<T*>(a) = v] for a four-byte [T] with object
    representation [v]. *)
Definition store_u32 (m : memory) (a : Z) (v : Z) : option memory :=
  match load_bytes m a 4 with
  | Some _ => Some (store_bytes m a (le_split 4 v))
  | None => None
  end.

End Mem.

Abbreviation memory := Mem.memory.

(** ** The context of a mid-function hook *)

Module Hook.

(** One vector register, seen through its [f32] member: four lanes, each
    held as its 32-bit pattern. *)
Record Xmm : Type := mkXmm {
  f32_0 : Z;
  f32_1 : Z;
  f32_2 : Z;
  f32_3 : Z
}.

(** [ctx.xmmN.f32[0] = v] *)
Definition set_f32_0 (x : Xmm) (v : f32) : Xmm :=
  {| f32_0 := F32.bits v; f32_1 := f32_1 x; f32_2 := f32_2 x; f32_3 := f32_3 x |}.

(** The registers a callback may read and write (32-bit build). *)
Record Context : Type := mkContext {
  xmm0 : Xmm; xmm1 : Xmm; xmm2 : Xmm; xmm3 : Xmm;
  xmm4 : Xmm; xmm5 : Xmm; xmm6 : Xmm; xmm7 : Xmm;
  eflags : Z;
  edi : Z; esi : Z; edx : Z; ecx : Z; ebx : Z; eax : Z; ebp : Z; esp : Z;
  trampoline_esp : Z;
  eip : Z
}.

Definition set_xmm0 (ctx : Context) (x : Xmm) : Context :=
  {| xmm0 := x; xmm1 := xmm1 ctx; xmm2 := xmm2 ctx; xmm3 := xmm3 ctx;
     xmm4 := xmm4 ctx; xmm5 := xmm5 ctx; xmm6 := xmm6 ctx; xmm7 := xmm7 ctx;
     eflags := eflags ctx;
     edi := edi ctx; esi := esi ctx; edx := edx ctx; ecx := ecx ctx;
     ebx := ebx ctx; eax := eax ctx; ebp := ebp ctx; esp := esp ctx;
     trampoline_esp := trampoline_esp ctx;
     eip := eip ctx |}.

End Hook.

Import Hook.

(** ** Configuration, globals and the callbacks *)

Module Fix.

Record resolution_t : Type := mk_resolution {
  width : Z;
  height : Z;
  aspectRatio : f32
}.

Record constrainHud_t : Type := mk_constrainHud { enable : bool }.

Record features_t : Type := mk_features { constrainHud : constrainHud_t }.

Record yml_t : Type := mk_yml {
  name : string;
  masterEnable : bool;
  resolution : resolution_t;
  feature : features_t
}.

(** The file-scope variables the callbacks read. *)
Record Globals : Type := mkGlobals {
  yml : yml_t;
  nativeWidth : Z;
  nativeOffset : Z;
  widthScalingFactor : f32;
  isMoviePlaying : bool
}.

Definition set_isMoviePlaying (g : Globals) (b : bool) : Globals :=
  {| yml := yml g; nativeWidth := nativeWidth g; nativeOffset := nativeOffset g;
     widthScalingFactor := widthScalingFactor g; isMoviePlaying := b |}.

(** The globals as static initialisation leaves them. *)
Definition initial_globals : Globals :=
  {| yml := {| name := EmptyString;
               masterEnable := false;
               resolution := {| width := 0; height := 0;
                                aspectRatio := S754_zero false |};
               feature := {| constrainHud := {| enable := false |} |} |};
     nativeWidth := 0;
     nativeOffset := 0;
     widthScalingFactor := S754_zero false;
     isMoviePlaying := false |}.

(** *** [readYml] *)

(** The values [config[...].as<T>()] yields for the keys read. *)
Record Document : Type := mkDocument {
  doc_name : string;
  doc_masterEnable : bool;
  doc_width : Z;
  doc_height : Z;
  doc_constrainHud_enable : bool
}.

(** [desktop] is what [Utils::getDesktopDimensions()] returns, a pair of
    [int]; storing an [int] in a [u32] member wraps it. *)
Definition effective_resolution (doc : Document) (desktop : Z * Z) : Z * Z :=
  if (doc_width doc =? 0) || (doc_height doc =? 0)
  then (u32_wrap (fst desktop), u32_wrap (snd desktop))
  else (doc_width doc, doc_height doc).

(** The globals after [readYml]; [None] where a float-to-[u32]
    conversion is out of range. *)
Definition readYml (doc : Document) (desktop : Z * Z) (g : Globals)
  : option Globals :=
  let '(w, h) := effective_resolution doc desktop in
  let aspect := F32.div (F32.of_u32 w) (F32.of_u32 h) in
  nw ← F32.to_u32 (F32.mul F32.sixteen_ninths (F32.of_u32 h));
  no ← F32.to_u32 (F32.div (F32.of_u32 (u32_wrap (w - nw))) F32.two);
  Some {| yml := {| name := doc_name doc;
                    masterEnable := doc_masterEnable doc;
                    resolution := {| width := w; height := h; aspectRatio := aspect |};
                    feature := {| constrainHud :=
                                    {| enable := doc_constrainHud_enable doc |} |} |};
          nativeWidth := nw;
          nativeOffset := no;
          widthScalingFactor := F32.div (F32.of_u32 w) (F32.of_u32 nw);
          isMoviePlaying := isMoviePlaying g |}.

(** *** The callbacks (the lambdas handed to [Utils::injectHook]) *)

Definition aspectRatio_callback (g : Globals) (ctx : Context) : Context :=
  set_xmm0 ctx (set_f32_0 (xmm0 ctx) (aspectRatio (resolution (yml g)))).

Definition resolution_callback (g : Globals) (ctx : Context) : Context :=
  if Bool.eqb (isMoviePlaying g) false
  then set_xmm0 ctx (set_f32_0 (xmm0 ctx) (F32.of_u32 (width (resolution (yml g)))))
  else ctx.

(** The guard of the HUD callback on the two words read. *)
Definition hud_guard (scaler0 scaler1 : Z) : bool :=
  (Z.land scaler0 0xBF000000 =? 0xBF000000) &&
  (Z.land scaler1 0x3F000000 =? 0x3F000000).

Definition hud_ratio (g : Globals) : f32 :=
  F32.div (F32.of_u32 (nativeWidth g)) (F32.of_u32 (width (resolution (yml g)))).

Definition hud_field_A (g : Globals) : f32 :=
  F32.mul (F32.div F32.two (F32.of_u32 (width (resolution (yml g))))) (hud_ratio g).

Definition hud_field_B (g : Globals) : f32 :=
  F32.mul (hud_ratio g) F32.neg_one.

(** The callback works on the context and on memory; [None] is an
    access to an address that is not mapped. *)
Definition hud_callback (g : Globals) (ctx : Context) (m : memory)
  : option (Context * memory) :=
  scaler0 ← Mem.load_u32 m (u32_wrap (eax ctx + 0x30));
  scaler1 ← Mem.load_u32 m (u32_wrap (eax ctx + 0x3C));
  if hud_guard scaler0 scaler1 then
    m1 ← Mem.store_u32 m (u32_wrap (eax ctx + 0x00)) (F32.bits (hud_field_A g));
    m2 ← Mem.store_u32 m1 (u32_wrap (eax ctx + 0x30)) (F32.bits (hud_field_B g));
    Some (ctx, m2)
  else Some (ctx, m).

End Fix.

Import Fix.

(** ** The ReadFile intercept *)

Module Movie.

Local Open Scope string_scope.

(** *** [std::filesystem::path::extension] on the strings the hook sees

    The file name is what follows the last directory separator (after a
    drive designator when there is no separator at all); its extension
    starts at the last period, unless the name is [.] or [..] or that
    period is its first character. *)

Definition is_separator (c : ascii) : bool :=
  Ascii.eqb c "\" || Ascii.eqb c "/".

Fixpoint after_last_separator (s : string) : option string :=
  match s with
  | EmptyString => None
  | String c r =>
      match after_last_separator r with
      | Some f => Some f
      | None => if is_separator c then Some r else None
      end
  end.

Definition is_letter (c : ascii) : bool :=
  let n := nat_of_ascii c in
  ((65 <=? n) && (n <=? 90) || (97 <=? n) && (n <=? 122))%nat.

Definition after_drive (s : string) : string :=
  match s with
  | String c (String ":" r) => if is_letter c then r else s
  | _ => s
  end.

Definition filename (s : string) : string :=
  match after_last_separator s with
  | Some f => f
  | None => after_drive s
  end.

(** The suffix of [s] that starts at its last period. *)
Fixpoint from_last_dot (s : string) : option string :=
  match s with
  | EmptyString => None
  | String c r =>
      match from_last_dot r with
      | Some e => Some e
      | None => if Ascii.eqb c "." then Some s else None
      end
  end.

Definition extension (s : string) : string :=
  let f := filename s in
  if String.eqb f "." || String.eqb f ".." then EmptyString
  else match f with
       | EmptyString => EmptyString
       | String _ r => match from_last_dot r with Some e => e | None => EmptyString end
       end.

(** [s.starts_with(p)] and [s.substr(n)] of [std::string]. *)
Definition starts_with (s p : string) : bool := String.prefix p s.

Fixpoint substr (s : string) (n : nat) {struct n} : string :=
  match n, s with
  | O, _ => s
  | S n', String _ r => substr r n'
  | S _, EmptyString => EmptyString
  end.

Record ReadFileArgs : Type := mkArgs {
  hFile : Z;
  lpBuffer : Z;
  nNumberOfBytesToRead : Z;
  lpNumberOfBytesRead : Z;
  lpOverlapped : Z
}.

(** [pathStr] once the [\\?\] prefix, when present, is cut off. *)
Definition strip_prefix (fileName : string) : string :=
  let pathStr := fileName in
  if starts_with pathStr "\\?\" then substr pathStr 4 else pathStr.

(** The flag the hook stores when the path query succeeded with
    [fileName] in the buffer. *)
Definition movie_flag (fileName : string) : bool :=
  let pathStr := strip_prefix fileName in
  let extension := extension pathStr in
  if String.eqb extension ".wmv" then true else false.

Section Intercept.

(** The state of the operating system and of the rest of the process,
    on which the two primitives act. *)
Context {OS : Type}.

(** [GetFinalPathNameByHandleA(hFile, fileName, MAX_PATH,
    FILE_NAME_NORMALIZED)] on a zeroed buffer: its return value and
    the string left in [fileName]. *)
Variable GetFinalPathNameByHandleA : Z -> OS -> (Z * string) * OS.

(** [readFileHook.stdcall<BOOL>(...)]: the original [ReadFile]. *)
Variable original_ReadFile : ReadFileArgs -> OS -> Z * OS.

Definition kernelBaseDllReadFileHook (a : ReadFileArgs) (g : Globals) (os : OS)
  : Z * (Globals * OS) :=
  let '((n, fileName), os1) := GetFinalPathNameByHandleA (hFile a) os in
  let g1 := if (n =? 0)%Z then g else set_isMoviePlaying g (movie_flag fileName) in
  let '(r, os2) :=
    original_ReadFile
      {| hFile := hFile a; lpBuffer := lpBuffer a;
         nNumberOfBytesToRead := nNumberOfBytesToRead a;
         lpNumberOfBytesRead := lpNumberOfBytesRead a;
         lpOverlapped := lpOverlapped a |} os1 in
  (r, (g1, os2)).

End Intercept.

End Movie.

(** ** The signature scan *)

Module Scanner.

(** Modelled from the spec: the signature type and the pattern scan live
    in [utils.hpp], which is not part of the sources at hand.  A
    signature is an ordered sequence of (byte, is-wildcard) pairs, an
    optional explicit match length and a byte offset applied to the
    match address. *)
Record Signature : Type := mkSignature {
  pattern : list (byte * bool);
  length_override : option nat;
  offset : Z
}.

(** Modelled from the spec: at a candidate position every non-wildcard
    signature byte must equal the corresponding region byte; wildcard
    bytes match unconditionally. *)
Fixpoint matches_at (pat : list (byte * bool)) (region : list byte) : bool :=
  match pat, region with
  | [], _ => true
  | (b, wild) :: pat', r :: region' =>
      (wild || Byte.eqb b r) && matches_at pat' region'
  | _ :: _, [] => false
  end.

(** Modelled from the spec: the region is walked byte by byte from its
    start and the first matching position wins; [i] is the position of
    the head of [region]. *)
Fixpoint find_from (pat : list (byte * bool)) (region : list byte) (i : nat)
  : option nat :=
  if matches_at pat region then Some i
  else match region with
       | [] => None
       | _ :: region' => find_from pat region' (S i)
       end.

(** Modelled from the spec: [scan(region, signature) -> address |
    NotFound], the address being the match position with the
    signature's byte offset applied.  The length override describes the
    extent of the instruction at the match and takes no part in the
    search. *)
Definition scan (region : list byte) (sig : Signature) : option Z :=
  (fun i => Z.of_nat i + offset sig) <$> find_from (pattern sig) region 0.

(** Modelled from the spec: the text of a signature as the literals of
    [dllmain.cpp] give it: two hexadecimal digits per byte, [??] for a
    wildcard byte, blanks between. *)
Definition hex_digit (c : ascii) : option Z :=
  let n := Z.of_nat (nat_of_ascii c) in
  if (48 <=? n) && (n <=? 57) then Some (n - 48)
  else if (65 <=? n) && (n <=? 70) then Some (n - 55)
  else if (97 <=? n) && (n <=? 102) then Some (n - 87)
  else None.

Fixpoint parse (text : string) : list (byte * bool) :=
  match text with
  | EmptyString => []
  | String c EmptyString => []
  | String c (String d r as r1) =>
      if Ascii.eqb c " " then parse r1
      else if Ascii.eqb c "?" && Ascii.eqb d "?" then (Byte.x00, true) :: parse r
      else match hex_digit c, hex_digit d with
           | Some h, Some l => (byte.of_Z (16 * h + l), false) :: parse r
           | _, _ => []
           end
  end.

End Scanner.

(** ** Initialisation *)

Module Init.

Local Open Scope string_scope.

(** [Utils::ModuleInfo] as far as [dllmain.cpp] uses it. *)
Record ModuleInfo : Type := mkModuleInfo {
  address : Z;
  module_name : string
}.

(** [Utils::SignatureHook hook(text)] and [hook(text, offset)]. *)
Record SignatureHook : Type := mkSignatureHook {
  signature : string;
  hook_offset : Z
}.

(** The three lambdas. *)
Inductive Callback : Type :=
| AspectRatioCallback
| ResolutionCallback
| HudElementsCallback.

(** A mid-function hook in place. *)
Record MidHook : Type := mkMidHook {
  hook_address : Z;
  hook_callback : Callback
}.

(** One [LOG(fmt, args...)] line. *)
Inductive LogArg : Type :=
| ArgS (s : string)
| ArgZ (z : Z)
| ArgB (b : bool)
| ArgF (x : f32).

Record LogLine : Type := mkLogLine { fmt : string; args : list LogArg }.

(** The state initialisation works on: the globals of the file, the
    hooks in place and the log.  [readFileHook] is [None] for an empty
    [SafetyHookInline], else the address it detours. *)
Record Process : Type := mkProcess {
  globals : Globals;
  module : ModuleInfo;
  readFileHook : option Z;
  mid_hooks : list MidHook;
  log : list LogLine
}.

Definition LOG (p : Process) (f : string) (a : list LogArg) : Process :=
  {| globals := globals p; module := module p; readFileHook := readFileHook p;
     mid_hooks := mid_hooks p; log := log p ++ [ {| fmt := f; args := a |} ] |}.

Definition set_globals (p : Process) (g : Globals) : Process :=
  {| globals := g; module := module p; readFileHook := readFileHook p;
     mid_hooks := mid_hooks p; log := log p |}.

Definition set_module_name (p : Process) (n : string) : Process :=
  {| globals := globals p;
     module := {| address := address (module p); module_name := n |};
     readFileHook := readFileHook p; mid_hooks := mid_hooks p; log := log p |}.

Definition set_readFileHook (p : Process) (h : option Z) : Process :=
  {| globals := globals p; module := module p; readFileHook := h;
     mid_hooks := mid_hooks p; log := log p |}.

Definition add_mid_hook (p : Process) (h : MidHook) : Process :=
  {| globals := globals p; module := module p; readFileHook := readFileHook p;
     mid_hooks := mid_hooks p ++ [h]; log := log p |}.

(** The number of hooks in place. *)
Definition installed_hooks (p : Process) : nat :=
  ((match readFileHook p with Some _ => 1 | None => 0 end) + length (mid_hooks p))%nat.

(** What the host process and the operating system answer during
    initialisation. *)
Record Host : Type := mkHost {
  exePath : string;                       (* GetModuleFileNameW *)
  compilerInfo : string;                  (* Utils::getCompilerInfo() *)
  compiled_date : string;                 (* __DATE__ *)
  compiled_time : string;                 (* __TIME__ *)
  document : Document;                    (* GodEater1-2Fix.yml *)
  desktop : Z * Z;                        (* Utils::getDesktopDimensions() *)
  GetModuleHandleA : string -> Z;         (* 0 is the null handle *)
  GetProcAddress : Z -> string -> Z;      (* 0 is the null address *)
  create_inline : Z -> bool;              (* does the inline hook take? *)
  create_mid : Z -> bool;                 (* does the mid hook take? *)
  image : list byte                       (* the bytes of the main module *)
}.

Definition VERSION : string := "1.0.0".

Section Sequence.

Variable host : Host.

(** [Utils::injectHook(enable, module, hook, callback)]. *)
Variable injectHook :
  bool -> ModuleInfo -> SignatureHook -> Callback -> Process -> Process.

Definition logInit (p : Process) : Process :=
  let p := set_module_name p (Movie.filename (exePath host)) in
  let p := LOG p "-------------------------------------" [] in
  let p := LOG p "Compiler: {:s}" [ArgS (compilerInfo host)] in
  let p := LOG p "Compiled: {:s} at {:s}"
             [ArgS (compiled_date host); ArgS (compiled_time host)] in
  let p := LOG p "Version: {:s}" [ArgS VERSION] in
  let p := LOG p "Module Name: {:s}" [ArgS (module_name (module p))] in
  let p := LOG p "Module Path: {:s}" [ArgS (exePath host)] in
  LOG p "Module Addr: 0x{:x}" [ArgZ (address (module p))].

Definition readYml (p : Process) : option Process :=
  g ← Fix.readYml (document host) (desktop host) (globals p);
  let p := set_globals p g in
  let p := LOG p "Name: {}" [ArgS (name (yml g))] in
  let p := LOG p "MasterEnable: {}" [ArgB (masterEnable (yml g))] in
  let p := LOG p "Resolution.Width: {}" [ArgZ (width (resolution (yml g)))] in
  let p := LOG p "Resolution.Height: {}" [ArgZ (height (resolution (yml g)))] in
  let p := LOG p "Resolution.AspectRatio: {}"
             [ArgF (aspectRatio (resolution (yml g)))] in
  let p := LOG p "Normalized Width: {}" [ArgZ (nativeWidth g)] in
  let p := LOG p "Normalized Offset: {}" [ArgZ (nativeOffset g)] in
  Some (LOG p "Width Scaling Factor: {}" [ArgF (widthScalingFactor g)]).

Definition aspectRatioFix (p : Process) : Process :=
  let hook := {| signature := "F3 0F 11 05 ?? ?? ?? ??    E8 ?? ?? ?? ??    89 EC";
                 hook_offset := 0 |} in
  let enable := masterEnable (yml (globals p)) in
  injectHook enable (module p) hook AspectRatioCallback p.

Definition resolutionFix (p : Process) : Process :=
  let hook :=
    {| signature :=
         "76 ??    F3 0F 59 05 ?? ?? ?? ??    F3 0F 5E 05 ?? ?? ?? ??    E8 ?? ?? ?? ??";
       hook_offset := 18 |} in
  let enable := masterEnable (yml (globals p)) in
  injectHook enable (module p) hook ResolutionCallback p.

Definition hudElementsFix (p : Process) : Process :=
  let hook := {| signature := "F3 0F 6F 00    F3 0F 7F 41 0C    F3 0F 6F 40 10";
                 hook_offset := 0 |} in
  let enable := masterEnable (yml (globals p))
                && enable (constrainHud (feature (yml (globals p)))) in
  injectHook enable (module p) hook HudElementsCallback p.

Definition moviesFix (p : Process) : Process :=
  let enable := masterEnable (yml (globals p)) in
  if Bool.eqb enable true then
    let targetDll := "KernelBase.dll" in
    let kernelBaseAddr := GetModuleHandleA host targetDll in
    if (kernelBaseAddr =? 0)%Z then
      LOG p "Failed to get handle to {:s}" [ArgS targetDll]
    else
      let dllFunction := "ReadFile" in
      let readFileAddr := GetProcAddress host kernelBaseAddr dllFunction in
      if (readFileAddr =? 0)%Z then
        LOG p "Failed to get address of {:s}" [ArgS dllFunction]
      else
        let p := set_readFileHook p
                   (if create_inline host readFileAddr
                    then Some readFileAddr else None) in
        LOG p "Hooked {:s} @ {:s}+{:x}"
          [ArgS dllFunction; ArgS targetDll;
           ArgZ ((readFileAddr - kernelBaseAddr) mod 2 ^ 64)]
  else p.

(** [Main] returns [true]; [None] stands for the undefined behaviour
    [readYml] can meet. *)
Definition Main (p : Process) : option (Z * Process) :=
  let p := logInit p in
  p ← readYml p;
  let p := moviesFix p in
  let p := aspectRatioFix p in
  let p := resolutionFix p in
  let p := hudElementsFix p in
  Some (1, p).

End Sequence.

(** Modelled from the spec: [Utils::injectHook] is in [utils.hpp], which
    is not part of the sources at hand.  A policy whose enable predicate
    is false, or whose signature cannot be found, is never installed,
    which a log line records; a found signature gets a hook at the match
    address (offset applied), and a hook that cannot be installed is
    logged and skipped. *)
Definition injectHook (host : Host) (enable : bool) (module : ModuleInfo)
  (hook : SignatureHook) (cb : Callback) (p : Process) : Process :=
  if enable then
    let sig := {| Scanner.pattern := Scanner.parse (signature hook);
                  Scanner.length_override := None;
                  Scanner.offset := hook_offset hook |} in
    match Scanner.scan (image host) sig with
    | Some rel =>
        let target := (address module + rel)%Z in
        if create_mid host target then
          LOG (add_mid_hook p {| hook_address := target; hook_callback := cb |})
            "hook installed" [ArgS (signature hook); ArgZ target]
        else LOG p "hook installation failed" [ArgS (signature hook); ArgZ target]
    | None => LOG p "signature not found" [ArgS (signature hook)]
    end
  else LOG p "fix disabled" [ArgS (signature hook)].

(** The process when [Main] is entered for the first time. *)
Definition initial_process (host_module : Z) : Process :=
  {| globals := initial_globals;
     module := {| address := host_module; module_name := EmptyString |};
     readFileHook := None;
     mid_hooks := [];
     log := [] |}.

End Init.


(** * Vocabulary of the properties *)

(** The signature made of the bytes [bs], none of them a wildcard. *)
Definition exact_pattern (bs : list byte) : list (byte * bool) :=
  map (fun b => (b, false)) bs.

(** [bs] is found in [region] at position [j]. *)
Definition occurs_at (bs region : list byte) (j : nat) : Prop :=
  bs `prefix_of` drop j region.

(** [p'] differs from [p] in the log at most. *)
Definition only_logged (p p' : Init.Process) : Prop :=
  Init.globals p' = Init.globals p /\ Init.module p' = Init.module p /\
  Init.readFileHook p' = Init.readFileHook p /\
  Init.mid_hooks p' = Init.mid_hooks p.

(** Rounding to the nearest integer, which is how the specification words
    the native width: [round(16/9 * height)]. *)
Definition round_nearest (q : Q) : Z := Qfloor (q + (1 # 2)).

Definition spec_nativeWidth (h : Z) : Z := round_nearest ((16 # 9) * inject_Z h).

(** [test] holds on the [2 ^ k] integers from [lo] on. *)
Fixpoint holds_on (k : nat) (width : Z) (lo : Z) (test : Z -> bool) : bool :=
  match k with
  | O => test lo
  | S k' =>
      let half := Z.div2 width in
      holds_on k' half lo test && holds_on k' half (lo + half) test
  end.

(** The two conversions of [readYml] agree with integer arithmetic. *)
Definition nativeWidth_is_floor (h : Z) : bool :=
  match F32.to_u32 (F32.mul F32.sixteen_ninths (F32.of_u32 h)) with
  | Some nw => nw =? 16 * h / 9
  | None => false
  end.

Definition nativeOffset_is_half (d : Z) : bool :=
  match F32.to_u32 (F32.div (F32.of_u32 d) F32.two) with
  | Some no => no =? d / 2
  | None => false
  end.

(** A run of intercepted reads, one after the other, on the globals and
    the operating system the previous one left; the results in order. *)
Fixpoint hooked_reads {OS : Type}
  (query : Z -> OS -> (Z * string) * OS)
  (original : Movie.ReadFileArgs -> OS -> Z * OS)
  (calls : list Movie.ReadFileArgs) (g : Globals) (os : OS)
  : list Z * (Globals * OS) :=
  match calls with
  | [] => ([], (g, os))
  | a :: calls' =>
      let '(r, (g1, os1)) := Movie.kernelBaseDllReadFileHook query original a g os in
      let '(rs, final) := hooked_reads query original calls' g1 os1 in
      (r :: rs, final)
  end.

(** The same reads without the hook in place. *)
Fixpoint plain_reads {OS : Type}
  (original : Movie.ReadFileArgs -> OS -> Z * OS)
  (calls : list Movie.ReadFileArgs) (os : OS) : list Z * OS :=
  match calls with
  | [] => ([], os)
  | a :: calls' =>
      let '(r, os1) := original a os in
      let '(rs, final) := plain_reads original calls' os1 in
      (r :: rs, final)
  end.

(** With [width] short of the native width by [short], the difference
    wraps; what [readYml] then stores as the native offset. *)
Definition nativeOffset_wraps (short : Z) : bool :=
  match F32.to_u32 (F32.div (F32.of_u32 (u32_wrap (- short))) F32.two) with
  | Some no => (0x7FFF8000 <=? no) && (no <=? 0x80000000)
  | None => false
  end.

(** * Concrete data used by the examples *)

Module Examples.

Local Open Scope string_scope.

(** A toy operating system for the intercept: the state counts the reads
    forwarded; handle 1 is a cutscene, handle 2 a script archive, any
    other handle cannot be resolved. *)
Definition toy_query (h : Z) (os : nat) : (Z * string) * nat :=
  if (h =? 1)%Z then ((44, "\\?\C:\GE\data\GameData\movie\intro.wmv"), os)
  else if (h =? 2)%Z then ((27, "\\?\C:\GE\data\script.qpck"), os)
  else ((0, EmptyString), os).

Definition toy_ReadFile (a : Movie.ReadFileArgs) (os : nat) : Z * nat :=
  (Movie.nNumberOfBytesToRead a, S os).

Definition read_of (h : Z) : Movie.ReadFileArgs :=
  {| Movie.hFile := h; Movie.lpBuffer := 4096; Movie.nNumberOfBytesToRead := 512;
     Movie.lpNumberOfBytesRead := 8192; Movie.lpOverlapped := 0 |}.

Definition doc_3440x1440 : Document :=
  {| doc_name := "God Eater Fix"; doc_masterEnable := true;
     doc_width := 3440; doc_height := 1440; doc_constrainHud_enable := true |}.

(** A host whose main module holds the three signatures one after the
    other, behind one byte of padding. *)
Definition bytes_of_signature (text : string) : list byte :=
  map fst (Scanner.parse text).

Definition toy_image : list byte :=
  [Byte.x90]
  ++ bytes_of_signature "F3 0F 11 05 ?? ?? ?? ??    E8 ?? ?? ?? ??    89 EC"
  ++ bytes_of_signature
       "76 ??    F3 0F 59 05 ?? ?? ?? ??    F3 0F 5E 05 ?? ?? ?? ??    E8 ?? ?? ?? ??"
  ++ bytes_of_signature "F3 0F 6F 00    F3 0F 7F 41 0C    F3 0F 6F 40 10".

(** [kernelBase] is the handle [GetModuleHandleA] gives for
    [KernelBase.dll], [readFile] the address [GetProcAddress] gives for
    [ReadFile] in it. *)
Definition toy_host (doc : Document) (kernelBase readFile : Z) : Init.Host :=
  {| Init.exePath := "C:\GE\ger.exe";
     Init.compilerInfo := "MSVC";
     Init.compiled_date := "Jan  1 2025";
     Init.compiled_time := "00:00:00";
     Init.document := doc;
     Init.desktop := (1920, 1080);
     Init.GetModuleHandleA := fun _ => kernelBase;
     Init.GetProcAddress := fun _ _ => readFile;
     Init.create_inline := fun _ => true;
     Init.create_mid := fun _ => true;
     Init.image := toy_image |}.

Definition doc_disabled : Document :=
  {| doc_name := "God Eater Fix"; doc_masterEnable := false;
     doc_width := 3440; doc_height := 1440; doc_constrainHud_enable := true |}.

(** The globals [readYml] leaves for a 3440x1440 configuration. *)
Definition globals_3440x1440 : Globals :=
  Eval vm_compute in
    default initial_globals (Fix.readYml doc_3440x1440 (1920, 1080) initial_globals).

(** Sixty-four mapped bytes at [base], zero but for the words at
    [base + 0x30] and [base + 0x3C]. *)
Definition hud_memory (base scaler0 scaler1 : Z) : memory :=
  Mem.store_bytes
    (Mem.store_bytes
       (Mem.store_bytes ∅ base (le_split 64 0))
       (base + 0x30) (le_split 4 scaler0))
    (base + 0x3C) (le_split 4 scaler1).

Definition doc_1680x1050 : Document :=
  {| doc_name := "God Eater Fix"; doc_masterEnable := true;
     doc_width := 1680; doc_height := 1050; doc_constrainHud_enable := true |}.

Definition zero_xmm : Xmm := {| f32_0 := 0; f32_1 := 0; f32_2 := 0; f32_3 := 0 |}.

Definition ctx_at (base : Z) : Context :=
  {| xmm0 := zero_xmm; xmm1 := zero_xmm; xmm2 := zero_xmm; xmm3 := zero_xmm;
     xmm4 := zero_xmm; xmm5 := zero_xmm; xmm6 := zero_xmm; xmm7 := zero_xmm;
     eflags := 0; edi := 0; esi := 0; edx := 0; ecx := 0; ebx := 0;
     eax := base; ebp := 0; esp := 0; trampoline_esp := 0; eip := 0 |}.

Definition doc_1024x768 : Document :=
  {| doc_name := "God Eater Fix"; doc_masterEnable := true;
     doc_width := 1024; doc_height := 768; doc_constrainHud_enable := true |}.

Definition doc_auto : Document :=
  {| doc_name := "God Eater Fix"; doc_masterEnable := true;
     doc_width := 0; doc_height := 1440; doc_constrainHud_enable := false |}.

End Examples.

(** * Properties *)

(** ** binary32 arithmetic *)

Section F32Facts.

Import F32.

Abbreviation fexp := (SpecFloat.fexp prec emax).

Lemma fexp_eq (x : Z) : fexp x = Z.max (x - 24) (-149).
Proof. reflexivity. Qed.

Lemma digits2_pos_size (p : positive) : digits2_pos p = Pos.size p.
Proof. induction p as [p IH|p IH|]; simpl; congruence. Qed.

Lemma Zdigits2_log2 (m : Z) : 0 < m -> Zdigits2 m = Z.log2 m + 1.
Proof.
  destruct m as [|p|p]; try lia. intros _.
  destruct p as [p|p|]; simpl; rewrite ?digits2_pos_size; lia.
Qed.

Lemma Zdigits2_nonneg (m : Z) : 0 <= Zdigits2 m.
Proof. destruct m; simpl; lia. Qed.

(** [m] has at least [k + 1] digits when it reaches [2 ^ k]. *)
Lemma Zdigits2_lower (m k : Z) : 0 <= k -> 2 ^ k <= m -> k + 1 <= Zdigits2 m.
Proof.
  intros Hk Hm. assert (0 < m) by (pose proof (Z.pow_pos_nonneg 2 k); lia).
  rewrite Zdigits2_log2 by assumption.
  pose proof (Z.log2_le_pow2 m k ltac:(assumption)). lia.
Qed.

Lemma Zdigits2_bounds (m : Z) :
  0 < m -> 2 ^ (Zdigits2 m - 1) <= m < 2 ^ Zdigits2 m.
Proof.
  intros Hm. rewrite Zdigits2_log2 by assumption.
  replace (Z.log2 m + 1 - 1) with (Z.log2 m) by lia.
  apply (Z.log2_spec m Hm).
Qed.

Lemma Zdigits2_mono (a b : Z) : 0 <= a <= b -> Zdigits2 a <= Zdigits2 b.
Proof.
  intros [Ha Hab]. destruct (Z.eq_dec a 0) as [->|Hne].
  - apply Zdigits2_nonneg.
  - rewrite !Zdigits2_log2 by lia. pose proof (Z.log2_le_mono a b Hab). lia.
Qed.

Lemma shr_1_spec (mrs : shr_record) :
  0 <= shr_m mrs ->
  0 <= shr_m (shr_1 mrs) /\
  Zdigits2 (shr_m (shr_1 mrs)) = Z.max 0 (Zdigits2 (shr_m mrs) - 1).
Proof.
  destruct mrs as [m r s]. simpl. intros Hm.
  destruct m as [|p|p]; [simpl; lia | | lia].
  destruct p as [p|p|]; simpl; lia.
Qed.

Lemma iter_shr_1_spec (n : positive) :
  forall mrs : shr_record,
    0 <= shr_m mrs ->
    0 <= shr_m (SpecFloat.iter_pos shr_1 n mrs) /\
    Zdigits2 (shr_m (SpecFloat.iter_pos shr_1 n mrs))
    = Z.max 0 (Zdigits2 (shr_m mrs) - Zpos n).
Proof.
  induction n as [n IH|n IH|]; intros mrs Hm; simpl SpecFloat.iter_pos.
  - destruct (shr_1_spec mrs Hm) as [H1 D1].
    destruct (IH _ H1) as [H2 D2]. destruct (IH _ H2) as [H3 D3].
    split; [assumption|]. rewrite D3, D2, D1. lia.
  - destruct (IH _ Hm) as [H2 D2]. destruct (IH _ H2) as [H3 D3].
    split; [assumption|]. rewrite D3, D2. lia.
  - apply shr_1_spec, Hm.
Qed.

(** After [shr_fexp] on a mantissa that is not too short, the mantissa
    fits its exponent. *)
Lemma shr_fexp_canonical (m e : Z) (l : location) :
  0 <= m -> e <= fexp (Zdigits2 m + e) ->
  0 <= shr_m (fst (shr_fexp prec emax m e l)) /\
  fexp (Zdigits2 (shr_m (fst (shr_fexp prec emax m e l)))
        + snd (shr_fexp prec emax m e l))
  = snd (shr_fexp prec emax m e l).
Proof.
  intros Hm He. unfold shr_fexp, shr.
  assert (Hrec : shr_m (shr_record_of_loc m l) = m) by (destruct l as [|[]]; reflexivity).
  destruct (fexp (Zdigits2 m + e) - e) as [|n|n] eqn:En; simpl fst; simpl snd.
  - rewrite Hrec. split; [assumption|]. lia.
  - destruct (iter_shr_1_spec n (shr_record_of_loc m l)) as [H D];
      [rewrite Hrec; assumption|].
    split; [assumption|]. rewrite D, Hrec.
    rewrite fexp_eq in *. lia.
  - lia.
Qed.

Lemma round_nearest_even_bounds (m : Z) (l : location) :
  m <= round_nearest_even m l <= m + 1.
Proof.
  unfold round_nearest_even. destruct l as [|[]]; try lia.
  destruct (Z.even m); lia.
Qed.

(** Rounding a mantissa that is not too short gives a valid float. *)
Lemma binary_round_aux_valid (s : bool) (m e : Z) (l : location) :
  0 <= m -> e <= fexp (Zdigits2 m + e) ->
  valid (binary_round_aux prec emax s m e l).
Proof.
  intros Hm He. unfold valid, binary_round_aux.
  destruct (shr_fexp_canonical m e l Hm He) as [H1 C1].
  destruct (shr_fexp prec emax m e l) as [mrs1 e1]. simpl fst in *. simpl snd in *.
  pose proof (round_nearest_even_bounds (shr_m mrs1) (loc_of_shr_record mrs1)) as Hr.
  set (m1 := round_nearest_even (shr_m mrs1) (loc_of_shr_record mrs1)) in *.
  assert (He1 : e1 <= fexp (Zdigits2 m1 + e1)).
  { pose proof (Zdigits2_mono (shr_m mrs1) m1 ltac:(lia)).
    rewrite fexp_eq in *. lia. }
  destruct (shr_fexp_canonical m1 e1 loc_Exact ltac:(lia) He1) as [H2 C2].
  destruct (shr_fexp prec emax m1 e1 loc_Exact) as [mrs2 e2].
  simpl fst in *. simpl snd in *.
  destruct (shr_m mrs2) as [|p|p] eqn:Em; [reflexivity | | reflexivity].
  destruct (Z.leb_spec e2 (emax - prec)) as [Hle|Hgt]; [|reflexivity].
  simpl. unfold bounded, canonical_mantissa.
  apply andb_true_intro. split.
  - apply Z.eqb_eq. exact C2.
  - apply Z.leb_le. exact Hle.
Qed.

Lemma div_valid (x y : f32) : valid (div x y).
Proof.
  unfold valid, div.
  destruct x as [sx|sx| |sx mx ex], y as [sy|sy| |sy my ey]; try reflexivity.
  unfold SFdiv, SFdiv_core_binary.
  set (d1 := Zdigits2 (Z.pos mx)). set (d2 := Zdigits2 (Z.pos my)).
  set (e' := Z.min (fexp (d1 + ex - (d2 + ey))) (ex - ey)).
  set (m' := match ex - ey - e' with
             | 0 => Z.pos mx
             | Z.pos _ => Z.shiftl (Z.pos mx) (ex - ey - e')
             | Z.neg _ => 0
             end).
  assert (Hs : 0 <= ex - ey - e') by lia.
  assert (He'big : -149 < e' -> e' <= d1 + ex - (d2 + ey) - 24)
    by (subst e'; rewrite fexp_eq; lia).
  assert (Hm' : m' = Z.pos mx * 2 ^ (ex - ey - e')).
  { subst m'. destruct (ex - ey - e') as [|n|n] eqn:En.
    - simpl. lia.
    - now rewrite Z.shiftl_mul_pow2.
    - lia. }
  clearbody m'.
  pose proof (Z.div_eucl_eq m' (Z.pos my) ltac:(lia)) as Hdiv.
  pose proof (Z.mod_pos_bound m' (Z.pos my) ltac:(lia)) as Hrem.
  unfold Z.modulo in Hrem.
  destruct (Z.div_eucl m' (Z.pos my)) as [q r].
  assert (Hpow : 0 < 2 ^ (ex - ey - e')) by (apply Z.pow_pos_nonneg; lia).
  assert (Hq : 0 <= q) by nia.
  apply binary_round_aux_valid; [exact Hq|].
  rewrite fexp_eq.
  destruct (Z.le_gt_cases e' (-149)) as [|Hbig]; [lia|].
  (* the quotient has all its 24 digits *)
  specialize (He'big Hbig).
  pose proof (Zdigits2_bounds (Z.pos mx) ltac:(lia)) as [Hx _].
  pose proof (Zdigits2_bounds (Z.pos my) ltac:(lia)) as [_ Hy].
  fold d1 in Hx. fold d2 in Hy.
  assert (Hd1 : 1 <= d1) by (subst d1; simpl; lia).
  assert (Hd2 : 1 <= d2) by (subst d2; simpl; lia).
  assert (Hbig' : 2 ^ 23 * 2 ^ d2 <= m').
  { rewrite Hm', <- Z.pow_add_r by lia.
    transitivity (2 ^ (d1 - 1 + (ex - ey - e'))).
    - apply Z.pow_le_mono_r; lia.
    - rewrite Z.pow_add_r by lia.
      apply Z.mul_le_mono_nonneg_r; [lia | exact Hx]. }
  assert (0 < 2 ^ d2) by (apply Z.pow_pos_nonneg; lia).
  assert (2 ^ 23 <= q) by nia.
  pose proof (Zdigits2_lower q 23 ltac:(lia) ltac:(assumption)). lia.
Qed.

Lemma valid_finite_inv (s : bool) (m : positive) (e : Z) :
  valid (S754_finite s m e) ->
  fexp (Zdigits2 (Z.pos m) + e) = e /\ e <= 104.
Proof.
  unfold valid. simpl. unfold bounded, canonical_mantissa.
  intros [Hc He]%andb_prop. apply Z.eqb_eq in Hc. apply Z.leb_le in He.
  split; [exact Hc | exact He].
Qed.

Lemma Zdigits2_mul (a b : positive) :
  Zdigits2 (Z.pos a) + Zdigits2 (Z.pos b) - 1 <= Zdigits2 (Z.pos (a * b)).
Proof.
  pose proof (Zdigits2_bounds (Z.pos a) ltac:(lia)) as [Ha _].
  pose proof (Zdigits2_bounds (Z.pos b) ltac:(lia)) as [Hb _].
  assert (1 <= Zdigits2 (Z.pos a)) by (simpl; lia).
  assert (1 <= Zdigits2 (Z.pos b)) by (simpl; lia).
  assert (0 < 2 ^ (Zdigits2 (Z.pos a) - 1)) by (apply Z.pow_pos_nonneg; lia).
  assert (0 < 2 ^ (Zdigits2 (Z.pos b) - 1)) by (apply Z.pow_pos_nonneg; lia).
  pose proof (Zdigits2_lower (Z.pos (a * b))
                (Zdigits2 (Z.pos a) - 1 + (Zdigits2 (Z.pos b) - 1)) ltac:(lia)) as Hlow.
  rewrite Z.pow_add_r in Hlow by lia. rewrite Pos2Z.inj_mul in *.
  specialize (Hlow ltac:(nia)). lia.
Qed.

Lemma mul_valid (x y : f32) : valid x -> valid y -> valid (mul x y).
Proof.
  intros Hx Hy. unfold mul.
  destruct x as [sx|sx| |sx mx ex], y as [sy|sy| |sy my ey]; try reflexivity.
  apply valid_finite_inv in Hx as [Hx _]. apply valid_finite_inv in Hy as [Hy _].
  simpl SFmul. apply binary_round_aux_valid; [lia|].
  pose proof (Zdigits2_mul mx my).
  assert (1 <= Zdigits2 (Z.pos mx)) by (simpl; lia).
  assert (1 <= Zdigits2 (Z.pos my)) by (simpl; lia).
  rewrite fexp_eq in *. lia.
Qed.

Lemma Zdigits2_shift23 (m : positive) :
  Zdigits2 (Z.pos (m * 8388608)) = Zdigits2 (Z.pos m) + 23.
Proof. rewrite Pos.mul_comm. simpl. rewrite Pos.mul_1_l, !Pos2Z.inj_succ. lia. Qed.

(** Multiplying by [-1.0f] flips the sign and nothing else. *)
Lemma mul_neg_one (x : f32) : valid x -> mul x neg_one = neg x.
Proof.
  intros Hx. unfold mul, neg, neg_one.
  destruct x as [sx|sx| |sx mx ex]; simpl;
    try reflexivity; try (destruct sx; reflexivity).
  apply valid_finite_inv in Hx as [Hc He].
  unfold binary_round_aux, shr_fexp.
  rewrite Zdigits2_shift23.
  replace (fexp (Zdigits2 (Z.pos mx) + 23 + (ex + -23)) - (ex + -23)) with 23
    by (replace (Zdigits2 (Z.pos mx) + 23 + (ex + -23))
          with (Zdigits2 (Z.pos mx) + ex) by lia; lia).
  rewrite Pos.mul_comm. simpl. rewrite Pos.mul_1_l.
  replace (ex + -23 + 23) with ex by lia.
  change (Zdigits2 (Z.pos mx)) with (Z.pos (digits2_pos mx)) in Hc.
  rewrite Hc, Z.sub_diag. simpl.
  change (emax - prec) with 104.
  destruct (Z.leb_spec ex 104) as [_|Hgt]; [|lia].
  now destruct sx.
Qed.

Lemma bits_range (x : f32) : valid x -> 0 <= bits x < 0x100000000.
Proof.
  intros Hx. destruct x as [s|s| |s m e]; simpl;
    try lia; try (destruct s; simpl; lia).
  apply valid_finite_inv in Hx as [Hc He]. rewrite fexp_eq in Hc.
  assert (1 <= Zdigits2 (Z.pos m)) by (simpl; lia).
  pose proof (Zdigits2_bounds (Z.pos m) ltac:(lia)) as [Hlo Hhi].
  destruct (Z.leb_spec 0x800000 (Z.pos m)) as [Hn|Hs].
  - assert (Zdigits2 (Z.pos m) = 24) as Hd.
    { pose proof (Zdigits2_lower (Z.pos m) 23 ltac:(lia) Hn). lia. }
    rewrite Hd in Hhi. change (2 ^ 24) with 16777216 in Hhi.
    destruct s; simpl; lia.
  - destruct s; simpl; lia.
Qed.

End F32Facts.

(** ** Memory *)

Section MemFacts.

Import Mem.

Lemma load_bytes_insert_other (m : memory) (a0 : Z) (b : byte) (n : nat) (a : Z) :
  a0 < a \/ a + Z.of_nat n <= a0 ->
  load_bytes (<[a0 := b]> m) a n = load_bytes m a n.
Proof.
  revert a. induction n as [|n IH]; intros a Hd; simpl; [reflexivity|].
  rewrite lookup_insert_ne by lia.
  destruct (m !! a); simpl; [|reflexivity].
  rewrite IH by lia. reflexivity.
Qed.

(** Bytes stored are the bytes read back. *)
Lemma load_bytes_store_same (bs : list byte) (m : memory) (a : Z) :
  load_bytes (store_bytes m a bs) a (length bs) = Some bs.
Proof.
  revert a. induction bs as [|b bs IH]; intros a; simpl; [reflexivity|].
  rewrite lookup_insert_eq. simpl.
  rewrite load_bytes_insert_other by lia. rewrite IH. reflexivity.
Qed.

(** A store leaves the bytes outside its range alone. *)
Lemma load_bytes_store_other (bs : list byte) (m : memory) (a0 a : Z) (n : nat) :
  a + Z.of_nat n <= a0 \/ a0 + Z.of_nat (length bs) <= a ->
  load_bytes (store_bytes m a0 bs) a n = load_bytes m a n.
Proof.
  revert a0. induction bs as [|b bs IH]; intros a0 Hd; simpl; [reflexivity|].
  simpl length in Hd.
  destruct n as [|n]; [reflexivity|].
  rewrite load_bytes_insert_other by lia. apply IH. lia.
Qed.

Lemma load_u32_store_same (m : memory) (a v : Z) :
  0 <= v < u32_modulus ->
  load_u32 (store_bytes m a (le_split 4 v)) a = Some v.
Proof.
  intros Hv. unfold load_u32.
  pose proof (load_bytes_store_same (le_split 4 v) m a) as Hsame.
  rewrite length_le_split in Hsame. rewrite Hsame. simpl fmap.
  rewrite le_combine_split. f_equal. apply Z.mod_small. exact Hv.
Qed.

Lemma load_u32_store_other (m : memory) (a0 a v : Z) :
  a + 4 <= a0 \/ a0 + 4 <= a ->
  load_u32 (store_bytes m a0 (le_split 4 v)) a = load_u32 m a.
Proof.
  intros Hd. unfold load_u32.
  rewrite (load_bytes_store_other (le_split 4 v) m a0 a 4); [reflexivity|].
  rewrite length_le_split. lia.
Qed.

Lemma load_u32_is_Some (m : memory) (a v : Z) :
  load_u32 m a = Some v -> is_Some (load_bytes m a 4).
Proof.
  unfold load_u32. destruct (load_bytes m a 4) as [bs|]; [eauto | discriminate].
Qed.

Lemma store_u32_is_Some (m : memory) (a v : Z) :
  is_Some (load_bytes m a 4) ->
  store_u32 m a v = Some (store_bytes m a (le_split 4 v)).
Proof. unfold store_u32. now intros [bs ->]. Qed.

Lemma load_u32_range (m : memory) (a v : Z) :
  load_u32 m a = Some v -> 0 <= v < u32_modulus.
Proof.
  unfold load_u32. destruct (load_bytes m a 4) as [bs|] eqn:E; [|discriminate].
  intros [= <-].
  assert (length bs = 4%nat) as Hlen.
  { revert E. simpl.
    repeat (match goal with
            | |- context [m !! ?k] => destruct (m !! k); simpl; [|discriminate]
            end).
    now intros [= <-]. }
  pose proof (le_combine_bound bs) as Hb. rewrite Hlen in Hb. exact Hb.
Qed.

End MemFacts.

(** ** The derived values of [readYml] *)

Section DerivedFacts.

Lemma holds_on_spec (test : Z -> bool) (k : nat) :
  forall lo : Z,
    holds_on k (2 ^ Z.of_nat k) lo test = true ->
    forall z, lo <= z < lo + 2 ^ Z.of_nat k -> test z = true.
Proof.
  induction k as [|k IH]; intros lo Hall z Hz.
  - simpl in *. assert (z = lo) as -> by lia. exact Hall.
  - cbn [holds_on] in Hall.
    assert (Hhalf : Z.div2 (2 ^ Z.of_nat (S k)) = 2 ^ Z.of_nat k).
    { rewrite Nat2Z.inj_succ, Z.pow_succ_r by lia.
      rewrite Z.div2_div, Z.mul_comm, Z.div_mul by lia. reflexivity. }
    rewrite Hhalf in Hall. apply andb_prop in Hall as [Hl Hr].
    rewrite Nat2Z.inj_succ, Z.pow_succ_r in Hz by lia.
    destruct (Z.lt_ge_cases z (lo + 2 ^ Z.of_nat k)) as [Hlt|Hge].
    + apply (IH lo Hl). lia.
    + apply (IH _ Hr). lia.
Qed.

(** Checked on every height a display can have. *)
Lemma nativeWidth_is_floor_checked :
  holds_on 16 (2 ^ Z.of_nat 16) 0 nativeWidth_is_floor = true.
Proof. vm_cast_no_check (eq_refl true). Qed.

Lemma nativeOffset_is_half_checked :
  holds_on 16 (2 ^ Z.of_nat 16) 0 nativeOffset_is_half = true.
Proof. vm_cast_no_check (eq_refl true). Qed.

Lemma nativeWidth_floor (h : Z) :
  0 <= h < 65536 ->
  F32.to_u32 (F32.mul F32.sixteen_ninths (F32.of_u32 h)) = Some (16 * h / 9).
Proof.
  intros Hh.
  pose proof (holds_on_spec _ 16 0 nativeWidth_is_floor_checked h Hh) as Ht.
  unfold nativeWidth_is_floor in Ht.
  destruct (F32.to_u32 _) as [nw|]; [|discriminate].
  apply Z.eqb_eq in Ht. now subst.
Qed.

Lemma nativeOffset_half (d : Z) :
  0 <= d < 65536 ->
  F32.to_u32 (F32.div (F32.of_u32 d) F32.two) = Some (d / 2).
Proof.
  intros Hd.
  pose proof (holds_on_spec _ 16 0 nativeOffset_is_half_checked d Hd) as Ht.
  unfold nativeOffset_is_half in Ht.
  destruct (F32.to_u32 _) as [no|]; [|discriminate].
  apply Z.eqb_eq in Ht. now subst.
Qed.

End DerivedFacts.

(** C5 (as the specification words it, false). [readYml] drops the
    fraction of [16/9 * height]; at 1680x1050 the native width is 1866,
    where rounding gives 1867. *)
Lemma nativeWidth_is_not_rounded :
  exists g : Globals,
    Fix.readYml Examples.doc_1680x1050 (1920, 1080) initial_globals = Some g /\
    height (resolution (yml g)) = 1050 /\
    nativeWidth g = 1866 /\
    spec_nativeWidth (height (resolution (yml g))) = 1867 /\
    nativeWidth g <> spec_nativeWidth (height (resolution (yml g))).
Proof.
  eexists. split; [vm_compute; reflexivity|].
  split; [reflexivity|]. split; [reflexivity|]. split; [reflexivity|].
  discriminate.
Qed.

(** C5 (amended). For a resolution with [height] and [width] below 65536
    and [width] not below the native width, [readYml] succeeds with
    [nativeWidth = floor(16/9 * height)],
    [nativeOffset = floor((width - nativeWidth) / 2)] and
    [widthScalingFactor = f32(width) / f32(nativeWidth)]; 3440x1440 gives
    2560, 440 and exactly 3440/2560. *)
Theorem readYml_derived_values (doc : Document) (desktop : Z * Z) (g : Globals)
  (w h : Z) :
  effective_resolution doc desktop = (w, h) ->
  0 <= h < 65536 ->
  0 <= w < 65536 ->
  16 * h / 9 <= w ->
  exists g' : Globals,
    Fix.readYml doc desktop g = Some g' /\
    width (resolution (yml g')) = w /\
    height (resolution (yml g')) = h /\
    nativeWidth g' = 16 * h / 9 /\
    nativeOffset g' = (w - nativeWidth g') / 2 /\
    widthScalingFactor g' = F32.div (F32.of_u32 w) (F32.of_u32 (nativeWidth g')) /\
    (w = 3440 -> h = 1440 ->
     nativeWidth g' = 2560 /\ nativeOffset g' = 440 /\
     F32.exactly (widthScalingFactor g') (3440 # 2560)).
Proof.
  intros Heff Hh Hw Hle.
  assert (Hnw : 0 <= 16 * h / 9) by (apply Z.div_pos; lia).
  unfold Fix.readYml. rewrite Heff.
  rewrite (nativeWidth_floor h Hh). simpl.
  assert (Hd : u32_wrap (w - 16 * h / 9) = w - 16 * h / 9).
  { unfold u32_wrap, u32_modulus. apply Z.mod_small. lia. }
  rewrite Hd, (nativeOffset_half (w - 16 * h / 9)) by lia. simpl.
  eexists. split; [reflexivity|]. simpl.
  split; [reflexivity|]. split; [reflexivity|]. split; [reflexivity|].
  split; [reflexivity|]. split; [reflexivity|].
  intros -> ->. split; [|split]; vm_compute; reflexivity.
Qed.

Lemma readYml_derived_values_witness :
  exists g' : Globals,
    Fix.readYml Examples.doc_3440x1440 (1920, 1080) initial_globals = Some g' /\
    nativeWidth g' = 2560 /\ nativeOffset g' = 440 /\
    F32.exactly (widthScalingFactor g') (3440 # 2560).
Proof.
  destruct (readYml_derived_values Examples.doc_3440x1440 (1920, 1080)
              initial_globals 3440 1440 eq_refl)
    as (g' & Hrun & _ & _ & _ & _ & _ & Hinst).
  - lia.
  - lia.
  - vm_compute. discriminate.
  - exists g'. split; [exact Hrun|]. exact (Hinst eq_refl eq_refl).
Defined.

(** ** The resolution callback *)

(** C3. With the movie flag clear the resolution callback stores the
    configured width, converted to [f32], in lane 0 of [xmm0] and touches
    nothing else; with the flag set it leaves the context as it was. *)
Theorem resolution_callback_gated (g : Globals) (ctx : Context) :
  (isMoviePlaying g = false ->
     resolution_callback g ctx
     = set_xmm0 ctx {| f32_0 := F32.bits (F32.of_u32 (width (resolution (yml g))));
                       f32_1 := f32_1 (xmm0 ctx);
                       f32_2 := f32_2 (xmm0 ctx);
                       f32_3 := f32_3 (xmm0 ctx) |}) /\
  (isMoviePlaying g = true -> resolution_callback g ctx = ctx).
Proof.
  unfold resolution_callback.
  split; intros ->; reflexivity.
Qed.

Lemma resolution_callback_gated_witness :
  f32_0 (xmm0 (resolution_callback Examples.globals_3440x1440 (Examples.ctx_at 0)))
  = 0x45570000 /\
  resolution_callback (set_isMoviePlaying Examples.globals_3440x1440 true)
    (Examples.ctx_at 0)
  = Examples.ctx_at 0.
Proof.
  split.
  - rewrite (proj1 (resolution_callback_gated
                      Examples.globals_3440x1440 (Examples.ctx_at 0)) eq_refl).
    reflexivity.
  - exact (proj2 (resolution_callback_gated
                    (set_isMoviePlaying Examples.globals_3440x1440 true)
                    (Examples.ctx_at 0)) eq_refl).
Defined.

(** ** The HUD callback *)

Section HudFacts.

Import Mem.
Local Arguments store_bytes : simpl never.
Local Arguments le_split : simpl never.

Lemma hud_callback_guard_fails (g : Globals) (ctx : Context) (m : memory)
  (scaler0 scaler1 : Z) :
  load_u32 m (u32_wrap (eax ctx + 0x30)) = Some scaler0 ->
  load_u32 m (u32_wrap (eax ctx + 0x3C)) = Some scaler1 ->
  hud_guard scaler0 scaler1 = false ->
  hud_callback g ctx m = Some (ctx, m).
Proof.
  intros H0 H1 Hg. unfold hud_callback. rewrite H0, H1. simpl. now rewrite Hg.
Qed.

(** A word whose top byte is zero has none of the bits either mask asks
    for. *)
Lemma land_small (s mask : Z) :
  0 <= s < 2 ^ 24 -> 2 ^ 24 <= mask -> (Z.land s mask =? mask) = false.
Proof.
  intros Hs Hmask. apply Z.eqb_neq.
  assert (Hpow : 0 < 2 ^ 24) by reflexivity.
  assert (Hn : 0 <= Z.land s mask) by (apply Z.land_nonneg; lia).
  destruct (Z.eq_dec (Z.land s mask) 0) as [E|E]; [lia|].
  destruct (Z.eq_dec s 0) as [->|Hs0]; [now rewrite Z.land_0_l in E|].
  pose proof (Z.log2_land s mask ltac:(lia) ltac:(lia)) as Hlog.
  assert (Z.log2 s < 24) by (apply Z.log2_lt_pow2; lia).
  assert (Z.land s mask < 2 ^ 24) by (apply Z.log2_lt_pow2; lia).
  lia.
Qed.

Lemma hud_guard_top_byte_zero (scaler0 scaler1 : Z) :
  0 <= scaler0 -> 0 <= scaler1 ->
  scaler0 / 2 ^ 24 = 0 \/ scaler1 / 2 ^ 24 = 0 ->
  hud_guard scaler0 scaler1 = false.
Proof.
  intros H0 H1 Hz. unfold hud_guard. apply andb_false_iff.
  assert (Hpow : 2 ^ 24 = 16777216) by reflexivity.
  destruct Hz as [Hz|Hz]; apply Z.div_small_iff in Hz; try lia.
  - left. apply land_small; lia.
  - right. apply land_small; lia.
Qed.

Lemma land_top_byte (s k : Z) :
  Z.land s (Z.shiftl k 24) = Z.shiftl (Z.land (Z.shiftr s 24) k) 24.
Proof.
  apply Z.bits_inj'. intros n Hn. rewrite Z.land_spec.
  destruct (Z.lt_ge_cases n 24) as [Hlo|Hhi].
  - rewrite !Z.shiftl_spec_low by lia. apply andb_false_r.
  - rewrite !Z.shiftl_spec by lia. rewrite Z.land_spec, Z.shiftr_spec by lia.
    f_equal. f_equal. lia.
Qed.

Lemma top_byte_test (s k : Z) :
  (Z.land s (Z.shiftl k 24) =? Z.shiftl k 24) = (Z.land (s / 2 ^ 24) k =? k).
Proof.
  rewrite land_top_byte, <- Z.shiftr_div_pow2 by lia.
  rewrite !Z.shiftl_mul_pow2 by lia.
  destruct (Z.eqb_spec (Z.land (Z.shiftr s 24) k) k) as [E|E].
  - rewrite E. apply Z.eqb_refl.
  - apply Z.eqb_neq. lia.
Qed.

(** What the guard asks of the two top bytes: every bit of [0xBF] set in
    the first, every bit of [0x3F] set in the second. *)
Lemma hud_guard_top_bytes (scaler0 scaler1 : Z) :
  hud_guard scaler0 scaler1
  = (Z.land (scaler0 / 2 ^ 24) 0xBF =? 0xBF) &&
    (Z.land (scaler1 / 2 ^ 24) 0x3F =? 0x3F).
Proof.
  unfold hud_guard.
  change 0xBF000000 with (Z.shiftl 0xBF 24).
  change 0x3F000000 with (Z.shiftl 0x3F 24).
  now rewrite !top_byte_test.
Qed.

(** The two addresses the callback writes are forty-eight bytes apart. *)
Lemma field_addresses_apart (a : Z) :
  u32_wrap (a + 0x00) + 4 <= u32_wrap (a + 0x30) \/
  u32_wrap (a + 0x30) + 4 <= u32_wrap (a + 0x00).
Proof.
  unfold u32_wrap, u32_modulus.
  pose proof (Z.div_mod (a + 0x00) 0x100000000 ltac:(lia)).
  pose proof (Z.div_mod (a + 0x30) 0x100000000 ltac:(lia)).
  pose proof (Z.mod_pos_bound (a + 0x00) 0x100000000 ltac:(lia)).
  pose proof (Z.mod_pos_bound (a + 0x30) 0x100000000 ltac:(lia)).
  lia.
Qed.

Lemma hud_ratio_valid (g : Globals) : F32.valid (hud_ratio g).
Proof. apply div_valid. Qed.

Lemma hud_field_A_valid (g : Globals) : F32.valid (hud_field_A g).
Proof. apply mul_valid; [apply div_valid | apply hud_ratio_valid]. Qed.

Lemma hud_field_B_neg (g : Globals) : hud_field_B g = F32.neg (hud_ratio g).
Proof. apply mul_neg_one, hud_ratio_valid. Qed.

Lemma hud_field_B_valid (g : Globals) : F32.valid (hud_field_B g).
Proof. apply mul_valid; [apply hud_ratio_valid | reflexivity]. Qed.

(** What a run with the guards passed leaves in memory. *)
Lemma hud_callback_formula_run (g : Globals) (ctx : Context) (m : memory)
  (scaler0 scaler1 : Z) :
  load_u32 m (u32_wrap (eax ctx + 0x30)) = Some scaler0 ->
  load_u32 m (u32_wrap (eax ctx + 0x3C)) = Some scaler1 ->
  hud_guard scaler0 scaler1 = true ->
  is_Some (load_bytes m (u32_wrap (eax ctx + 0x00)) 4) ->
  exists m' : memory,
    hud_callback g ctx m = Some (ctx, m') /\
    load_u32 m' (u32_wrap (eax ctx + 0x00)) = Some (F32.bits (hud_field_A g)) /\
    load_u32 m' (u32_wrap (eax ctx + 0x30))
    = Some (F32.bits (F32.neg (hud_ratio g))).
Proof.
  intros H0 H1 Hguard HA.
  pose proof (field_addresses_apart (eax ctx)) as Hapart.
  set (A := u32_wrap (eax ctx + 0x00)) in *.
  set (B := u32_wrap (eax ctx + 0x30)) in *.
  set (vA := F32.bits (hud_field_A g)).
  set (vB := F32.bits (hud_field_B g)).
  set (m1 := store_bytes m A (le_split 4 vA)).
  set (m2 := store_bytes m1 B (le_split 4 vB)).
  assert (HB1 : is_Some (load_bytes m1 B 4)).
  { unfold m1. rewrite load_bytes_store_other
      by (rewrite length_le_split; simpl; lia).
    exact (load_u32_is_Some m B scaler0 H0). }
  exists m2. split; [|split].
  - unfold hud_callback. fold B. rewrite H0, H1. simpl. rewrite Hguard.
    fold A vA. rewrite (store_u32_is_Some m A vA HA). simpl. fold m1.
    fold vB. rewrite (store_u32_is_Some m1 B vB HB1). reflexivity.
  - unfold m2. rewrite load_u32_store_other by lia.
    unfold m1. apply load_u32_store_same, bits_range, hud_field_A_valid.
  - unfold m2. rewrite <- hud_field_B_neg.
    apply load_u32_store_same, bits_range, hud_field_B_valid.
Qed.

End HudFacts.

(** C4. With both guard checks passed (and the words the callback
    touches mapped), the HUD callback computes
    [ratio = f32(nativeWidth) / f32(width)] and, when that ratio is a
    number, leaves [(2.0f / f32(width)) * ratio] in the word at
    [eax + 0x00] and [-ratio] in the word at [eax + 0x30].  A ratio that is
    not a number (0/0) is left out: the sign a NaN carries is not part of
    [F32.bits].  For 7680 and 3840 the ratio is one half, field A the
    float next to 1/7680 and field B minus one half; for 3440 and 2560 the
    ratio is the float next to 2560/3440. *)
Theorem hud_callback_formula (g : Globals) (ctx : Context) (m : memory)
  (scaler0 scaler1 : Z) :
  Mem.load_u32 m (u32_wrap (eax ctx + 0x30)) = Some scaler0 ->
  Mem.load_u32 m (u32_wrap (eax ctx + 0x3C)) = Some scaler1 ->
  hud_guard scaler0 scaler1 = true ->
  is_Some (Mem.load_bytes m (u32_wrap (eax ctx + 0x00)) 4) ->
  hud_ratio g <> S754_nan ->
  let w := F32.of_u32 (width (resolution (yml g))) in
  let ratio := F32.div (F32.of_u32 (nativeWidth g)) w in
  (exists m' : memory,
      hud_callback g ctx m = Some (ctx, m') /\
      Mem.load_u32 m' (u32_wrap (eax ctx + 0x00))
      = Some (F32.bits (F32.mul (F32.div F32.two w) ratio)) /\
      Mem.load_u32 m' (u32_wrap (eax ctx + 0x30))
      = Some (F32.bits (F32.neg ratio))) /\
  (width (resolution (yml g)) = 7680 -> nativeWidth g = 3840 ->
   F32.exactly ratio (1 # 2) /\
   F32.mul (F32.div F32.two w) ratio = S754_finite false 8947849 (-36) /\
   F32.exactly (F32.neg ratio) (- (1 # 2))) /\
  (width (resolution (yml g)) = 3440 -> nativeWidth g = 2560 ->
   ratio = S754_finite false 12485370 (-24) /\
   F32.mul (F32.div F32.two w) ratio = S754_finite false 14866301 (-35) /\
   F32.neg ratio = S754_finite true 12485370 (-24)).
Proof.
  intros H0 H1 Hguard HA Hnumber w ratio.
  split; [|split].
  - exact (hud_callback_formula_run g ctx m scaler0 scaler1 H0 H1 Hguard HA).
  - intros Hw Hn. subst w ratio. rewrite Hw, Hn.
    split; [|split]; vm_compute; reflexivity.
  - intros Hw Hn. subst w ratio. rewrite Hw, Hn.
    split; [|split]; vm_compute; reflexivity.
Qed.

Lemma hud_callback_formula_witness :
  exists m' : memory,
    hud_callback Examples.globals_3440x1440 (Examples.ctx_at 0x1000)
      (Examples.hud_memory 0x1000 0xBF800000 0x3F800000)
    = Some (Examples.ctx_at 0x1000, m') /\
    Mem.load_u32 m' 0x1000 = Some 0x39E2D77D /\
    Mem.load_u32 m' 0x1030 = Some 0xBF3E82FA.
Proof.
  destruct (hud_callback_formula Examples.globals_3440x1440 (Examples.ctx_at 0x1000)
              (Examples.hud_memory 0x1000 0xBF800000 0x3F800000)
              0xBF800000 0x3F800000)
    as [(m' & Hrun & HA & HB) _].
  - vm_compute. reflexivity.
  - vm_compute. reflexivity.
  - vm_compute. reflexivity.
  - vm_compute. eexists. reflexivity.
  - vm_compute. discriminate.
  - exists m'. split; [exact Hrun|]. split; [exact HA | exact HB].
Defined.

(** C1 (the code departs from it). The guard is a mask test, not a
    comparison of the top bytes: with [-1.0f] (top byte [0xBF]) in both
    words the second word's top byte is not [0x3F], yet the callback
    rewrites the fields. *)
Theorem hud_guard_admits_other_top_bytes :
  let m := Examples.hud_memory 0x1000 0xBF800000 0xBF800000 in
  let ctx := Examples.ctx_at 0x1000 in
  Mem.load_u32 m (u32_wrap (eax ctx + 0x30)) = Some 0xBF800000 /\
  Mem.load_u32 m (u32_wrap (eax ctx + 0x3C)) = Some 0xBF800000 /\
  0xBF800000 / 2 ^ 24 = 0xBF /\
  hud_guard 0xBF800000 0xBF800000 = true /\
  exists m' : memory,
    hud_callback Examples.globals_3440x1440 ctx m = Some (ctx, m') /\
    Mem.load_u32 m' (u32_wrap (eax ctx + 0x00)) = Some 0x39E2D77D /\
    Mem.load_u32 m' (u32_wrap (eax ctx + 0x30)) = Some 0xBF3E82FA.
Proof.
  intros m ctx.
  assert (H0 : Mem.load_u32 m (u32_wrap (eax ctx + 0x30)) = Some 0xBF800000)
    by (vm_compute; reflexivity).
  assert (H1 : Mem.load_u32 m (u32_wrap (eax ctx + 0x3C)) = Some 0xBF800000)
    by (vm_compute; reflexivity).
  split; [exact H0|]. split; [exact H1|].
  split; [reflexivity|]. split; [reflexivity|].
  destruct (hud_callback_formula_run Examples.globals_3440x1440 ctx m
              0xBF800000 0xBF800000 H0 H1 eq_refl)
    as (m' & Hrun & HA & HB).
  - vm_compute. eexists. reflexivity.
  - exists m'. split; [exact Hrun|]. split; [rewrite HA | rewrite HB];
      vm_compute; reflexivity.
Qed.

(** ** The ReadFile intercept *)

Section MovieFacts.

Import Movie.
Local Open Scope string_scope.
Local Arguments String.append : simpl nomatch.

Lemma append_assoc (a b c : string) : (a ++ b) ++ c = a ++ (b ++ c).
Proof. induction a as [|x a IH]; simpl; [reflexivity | now rewrite IH]. Qed.

Lemma length_append (a b : string) :
  String.length (a ++ b) = (String.length a + String.length b)%nat.
Proof. induction a as [|x a IH]; simpl; [reflexivity | now rewrite IH]. Qed.

(** A separator further right decides the file name. *)
Lemma after_last_separator_app (p t f : string) :
  after_last_separator t = Some f ->
  after_last_separator (p ++ t) = Some f.
Proof.
  intros Ht. induction p as [|c p IH]; simpl; [exact Ht | now rewrite IH].
Qed.

Lemma filename_app (p t f : string) :
  after_last_separator t = Some f -> filename (p ++ t) = f.
Proof.
  intros Ht. unfold filename. now rewrite (after_last_separator_app p t f Ht).
Qed.

Lemma substr_app (n : nat) (s t : string) :
  (n <= String.length s)%nat -> substr (s ++ t) n = substr s n ++ t.
Proof.
  revert s. induction n as [|n IH]; intros s Hn.
  - reflexivity.
  - destruct s as [|c s]; simpl in *; [lia|]. apply IH. lia.
Qed.

(** Cutting the prefix off leaves the last component alone when at least
    four characters precede it. *)
Lemma strip_prefix_app (s t : string) :
  (4 <= String.length s)%nat ->
  exists q, strip_prefix (s ++ t) = q ++ t.
Proof.
  intros Hs. unfold strip_prefix.
  destruct (starts_with (s ++ t) "\\?\").
  - exists (substr s 4). now apply substr_app.
  - now exists s.
Qed.

Lemma movie_flag_true_iff (fileName : string) :
  movie_flag fileName = true <-> extension (strip_prefix fileName) = ".wmv".
Proof.
  unfold movie_flag.
  destruct (String.eqb_spec (extension (strip_prefix fileName)) ".wmv") as [E|E];
    split; intros H; congruence.
Qed.

Lemma movie_flag_intro_wmv (dir : string) :
  movie_flag (dir ++ "\movie\intro.wmv") = true.
Proof.
  apply movie_flag_true_iff.
  change "\movie\intro.wmv" with ("\movie" ++ "\intro.wmv").
  rewrite <- append_assoc.
  destruct (strip_prefix_app (dir ++ "\movie") "\intro.wmv") as [q ->].
  { rewrite length_append. simpl. lia. }
  unfold extension. now rewrite (filename_app q "\intro.wmv" "intro.wmv").
Qed.

Lemma movie_flag_script_qpck (dir : string) :
  movie_flag (dir ++ "\data\script.qpck") = false.
Proof.
  unfold movie_flag.
  change "\data\script.qpck" with ("\data" ++ "\script.qpck").
  rewrite <- append_assoc.
  destruct (strip_prefix_app (dir ++ "\data") "\script.qpck") as [q ->].
  { rewrite length_append. simpl. lia. }
  unfold extension. now rewrite (filename_app q "\script.qpck" "script.qpck").
Qed.

Lemma set_isMoviePlaying_same (g : Globals) :
  set_isMoviePlaying g (isMoviePlaying g) = g.
Proof. now destruct g. Qed.

Lemma ReadFileArgs_eta (a : ReadFileArgs) :
  {| hFile := hFile a; lpBuffer := lpBuffer a;
     nNumberOfBytesToRead := nNumberOfBytesToRead a;
     lpNumberOfBytesRead := lpNumberOfBytesRead a;
     lpOverlapped := lpOverlapped a |} = a.
Proof. now destruct a. Qed.

Context {OS : Type}.
Variable query : Z -> OS -> (Z * string) * OS.
Variable original : ReadFileArgs -> OS -> Z * OS.

(** The hook unfolded: the query, the flag, the forwarded call. *)
Lemma kernelBaseDllReadFileHook_eq (a : ReadFileArgs) (g : Globals) (os : OS) :
  kernelBaseDllReadFileHook query original a g os
  = let n := fst (fst (query (hFile a) os)) in
    let fileName := snd (fst (query (hFile a) os)) in
    let os1 := snd (query (hFile a) os) in
    (fst (original a os1),
     (if (n =? 0)%Z then g else set_isMoviePlaying g (movie_flag fileName),
      snd (original a os1))).
Proof.
  unfold kernelBaseDllReadFileHook. rewrite ReadFileArgs_eta.
  destruct (query (hFile a) os) as [[n fileName] os1]; simpl.
  now destruct (original a os1).
Qed.

End MovieFacts.

(** C2. When the path query on the handle succeeds, the hook sets the
    movie flag to true exactly when the extension of the resolved path is
    [.wmv], and to false otherwise, whatever the flag was before: a read
    of [...\movie\intro.wmv] sets it, a read of [...\data\script.qpck]
    clears it. *)
Theorem ReadFile_hook_sets_flag_by_extension
  {OS : Type} (query : Z -> OS -> (Z * string) * OS)
  (original : Movie.ReadFileArgs -> OS -> Z * OS)
  (a : Movie.ReadFileArgs) (g : Globals) (os os1 : OS) (n : Z) (fileName : string) :
  query (Movie.hFile a) os = ((n, fileName), os1) ->
  n <> 0 ->
  let g' := fst (snd (Movie.kernelBaseDllReadFileHook query original a g os)) in
  (isMoviePlaying g' = true
   <-> Movie.extension (Movie.strip_prefix fileName) = ".wmv"%string) /\
  (Movie.extension (Movie.strip_prefix fileName) <> ".wmv"%string
   -> isMoviePlaying g' = false) /\
  (forall dir, fileName = (dir ++ "\movie\intro.wmv")%string
               -> isMoviePlaying g' = true) /\
  (forall dir, fileName = (dir ++ "\data\script.qpck")%string
               -> isMoviePlaying g' = false).
Proof.
  intros Hq Hn g'. subst g'.
  rewrite kernelBaseDllReadFileHook_eq, Hq. simpl.
  destruct (Z.eqb_spec n 0) as [|_]; [contradiction|]. simpl.
  repeat split.
  - apply movie_flag_true_iff.
  - apply movie_flag_true_iff.
  - intros Hne. destruct (Movie.movie_flag fileName) eqn:E; [|reflexivity].
    now apply movie_flag_true_iff in E.
  - intros dir ->. apply movie_flag_intro_wmv.
  - intros dir ->. apply movie_flag_script_qpck.
Qed.

Lemma ReadFile_hook_sets_flag_by_extension_witness :
  let g1 := fst (snd (Movie.kernelBaseDllReadFileHook
                        Examples.toy_query Examples.toy_ReadFile
                        (Examples.read_of 1) initial_globals 0%nat)) in
  let g2 := fst (snd (Movie.kernelBaseDllReadFileHook
                        Examples.toy_query Examples.toy_ReadFile
                        (Examples.read_of 2) g1 1%nat)) in
  isMoviePlaying g1 = true /\ isMoviePlaying g2 = false.
Proof.
  intros g1 g2. split.
  - refine (proj1 (proj2 (proj2 (ReadFile_hook_sets_flag_by_extension
             Examples.toy_query Examples.toy_ReadFile (Examples.read_of 1)
             initial_globals 0%nat 0%nat 44 _ eq_refl _))) "\\?\C:\GE\data\GameData"%string eq_refl).
    discriminate.
  - refine (proj2 (proj2 (proj2 (ReadFile_hook_sets_flag_by_extension
             Examples.toy_query Examples.toy_ReadFile (Examples.read_of 2)
             g1 1%nat 1%nat 27 _ eq_refl _))) "\\?\C:\GE"%string eq_refl).
    discriminate.
Defined.

(** C6. The hook hands the five arguments it received to the original
    [ReadFile], returns what that call returns and leaves behind the state
    that call leaves; of the globals it can change the movie flag only. *)
Theorem ReadFile_hook_forwards
  {OS : Type} (query : Z -> OS -> (Z * string) * OS)
  (original : Movie.ReadFileArgs -> OS -> Z * OS)
  (a : Movie.ReadFileArgs) (g : Globals) (os : OS) :
  let os1 := snd (query (Movie.hFile a) os) in
  exists flag : bool,
    Movie.kernelBaseDllReadFileHook query original a g os
    = (fst (original a os1),
       (set_isMoviePlaying g flag, snd (original a os1))).
Proof.
  intros os1. rewrite kernelBaseDllReadFileHook_eq. cbv zeta. fold os1.
  destruct (fst (fst (query (Movie.hFile a) os)) =? 0).
  - exists (isMoviePlaying g). now rewrite set_isMoviePlaying_same.
  - eexists. reflexivity.
Qed.

(** C10. When the path query returns zero the hook leaves the movie flag
    (and every other global) as it was, and still forwards the call. *)
Theorem ReadFile_hook_unresolved_handle
  {OS : Type} (query : Z -> OS -> (Z * string) * OS)
  (original : Movie.ReadFileArgs -> OS -> Z * OS)
  (a : Movie.ReadFileArgs) (g : Globals) (os os1 : OS) (fileName : string) :
  query (Movie.hFile a) os = ((0, fileName), os1) ->
  Movie.kernelBaseDllReadFileHook query original a g os
  = (fst (original a os1), (g, snd (original a os1))).
Proof.
  intros Hq. rewrite kernelBaseDllReadFileHook_eq, Hq. reflexivity.
Qed.

Lemma ReadFile_hook_unresolved_handle_witness :
  Movie.kernelBaseDllReadFileHook Examples.toy_query Examples.toy_ReadFile
    (Examples.read_of 7) (set_isMoviePlaying initial_globals true) 5%nat
  = (512, (set_isMoviePlaying initial_globals true, 6%nat)).
Proof.
  exact (ReadFile_hook_unresolved_handle Examples.toy_query Examples.toy_ReadFile
           (Examples.read_of 7) (set_isMoviePlaying initial_globals true)
           5%nat 5%nat EmptyString eq_refl).
Defined.

(** ** The signature scan *)

Section ScanFacts.

Import Scanner.

Lemma matches_at_exact (bs region : list byte) :
  matches_at (exact_pattern bs) region = true <-> bs `prefix_of` region.
Proof.
  revert region. induction bs as [|b bs IH]; intros region; simpl.
  - split; [intros _; apply prefix_nil | reflexivity].
  - destruct region as [|r region].
    + split; [discriminate | intros H; now apply prefix_nil_not in H].
    + rewrite andb_true_iff, IH. simpl. split.
      * intros [Hb Hp]. apply Byte.byte_dec_bl in Hb as ->. now apply prefix_cons.
      * intros H. split.
        -- apply prefix_cons_inv_1 in H as ->. now apply Byte.byte_dec_lb.
        -- now apply prefix_cons_inv_2 in H.
Qed.

(** What the walk returns: the least position that matches, or nothing
    when no position does. *)
Lemma find_from_spec (pat : list (byte * bool)) (region : list byte) (k : nat) :
  match find_from pat region k with
  | Some i =>
      (k <= i)%nat /\ matches_at pat (drop (i - k) region) = true /\
      forall j, (j < i - k)%nat -> matches_at pat (drop j region) = false
  | None => forall j, matches_at pat (drop j region) = false
  end.
Proof.
  revert k. induction region as [|r region IH]; intros k; simpl.
  - destruct (matches_at pat []) eqn:E.
    + rewrite Nat.sub_diag. simpl. repeat split; [lia | exact E | lia].
    + intros j. now rewrite drop_nil.
  - destruct (matches_at pat (r :: region)) eqn:E.
    + rewrite Nat.sub_diag. simpl. repeat split; [lia | exact E | lia].
    + specialize (IH (S k)). destruct (find_from pat region (S k)) as [i|].
      * destruct IH as (Hk & Hm & Hlt).
        replace (i - k)%nat with (S (i - S k)) by lia. simpl.
        repeat split; [lia | exact Hm |].
        intros [|j] Hj; simpl; [exact E | apply Hlt; lia].
      * intros [|j]; simpl; [exact E | apply IH].
Qed.

End ScanFacts.

(** C9. For a signature without wildcard bytes, the scan of a buffer
    that holds a copy of the signature bytes returns the lowest position at
    which the bytes occur, which is the position of the copy when they do
    not occur before it; the scan of a buffer that does not hold the bytes
    returns nothing. *)
Theorem scan_exact_copy (sig : Scanner.Signature) (bs : list byte) :
  Scanner.pattern sig = exact_pattern bs ->
  (forall hd tl : list byte,
      exists i : nat,
        Scanner.scan (hd ++ bs ++ tl) sig = Some (Z.of_nat i + Scanner.offset sig) /\
        (i <= length hd)%nat /\
        occurs_at bs (hd ++ bs ++ tl) i /\
        (forall j, (j < i)%nat -> ~ occurs_at bs (hd ++ bs ++ tl) j) /\
        ((forall j, (j < length hd)%nat -> ~ occurs_at bs (hd ++ bs ++ tl) j) ->
         i = length hd)) /\
  (forall region : list byte,
      (forall j, ~ occurs_at bs region j) -> Scanner.scan region sig = None).
Proof.
  intros Hpat. unfold Scanner.scan. rewrite Hpat. split.
  - intros hd tl.
    assert (Hcopy : occurs_at bs (hd ++ bs ++ tl) (length hd)).
    { unfold occurs_at. rewrite drop_app_length. now apply prefix_app_r. }
    pose proof (find_from_spec (exact_pattern bs) (hd ++ bs ++ tl) 0) as Hspec.
    destruct (Scanner.find_from (exact_pattern bs) (hd ++ bs ++ tl) 0) as [i|].
    + destruct Hspec as (_ & Hm & Hlt). rewrite Nat.sub_0_r in Hm, Hlt.
      assert (Hle : (i <= length hd)%nat).
      { destruct (Nat.le_gt_cases i (length hd)) as [|Hgt]; [assumption|].
        apply Hlt in Hgt. apply matches_at_exact in Hcopy. congruence. }
      exists i. simpl. repeat split; [exact Hle | now apply matches_at_exact | |].
      * intros j Hj Hocc. apply matches_at_exact in Hocc.
        rewrite (Hlt j Hj) in Hocc. discriminate.
      * intros Hnone. destruct (Nat.eq_dec i (length hd)) as [|Hne]; [assumption|].
        exfalso. apply (Hnone i); [lia | now apply matches_at_exact].
    + apply matches_at_exact in Hcopy. rewrite Hspec in Hcopy. discriminate.
  - intros region Hnone.
    pose proof (find_from_spec (exact_pattern bs) region 0) as Hspec.
    destruct (Scanner.find_from (exact_pattern bs) region 0) as [i|]; [|reflexivity].
    destruct Hspec as (_ & Hm & _). exfalso.
    apply (Hnone (i - 0)%nat). now apply matches_at_exact.
Qed.

Lemma scan_exact_copy_witness :
  Scanner.scan
    ([Byte.x90; Byte.xf3] ++ [Byte.xf3; Byte.x0f; Byte.x6f] ++ [Byte.xf3; Byte.x0f; Byte.x6f])
    {| Scanner.pattern := exact_pattern [Byte.xf3; Byte.x0f; Byte.x6f];
       Scanner.length_override := None; Scanner.offset := 0 |}
  = Some 2 /\
  Scanner.scan [Byte.xf3; Byte.x0f; Byte.x90; Byte.x6f]
    {| Scanner.pattern := exact_pattern [Byte.xf3; Byte.x0f; Byte.x6f];
       Scanner.length_override := None; Scanner.offset := 0 |}
  = None.
Proof.
  pose proof (scan_exact_copy
                {| Scanner.pattern := exact_pattern [Byte.xf3; Byte.x0f; Byte.x6f];
                   Scanner.length_override := None; Scanner.offset := 0 |}
                [Byte.xf3; Byte.x0f; Byte.x6f] eq_refl) as [_ Habsent].
  split; [reflexivity|].
  apply Habsent. intros j [k Hk].
  destruct j as [|[|[|[|j]]]]; simpl in Hk; try discriminate Hk.
  rewrite drop_nil in Hk. discriminate Hk.
Defined.

(** ** Initialisation *)

Section InitFacts.

Import Init.

Lemma readYml_masterEnable (doc : Document) (desk : Z * Z) (g g' : Globals) :
  Fix.readYml doc desk g = Some g' ->
  masterEnable (yml g') = doc_masterEnable doc.
Proof.
  unfold Fix.readYml. destruct (effective_resolution doc desk) as [w h].
  destruct (F32.to_u32 _) as [nw|]; simpl; [|discriminate].
  destruct (F32.to_u32 _) as [no|]; simpl; [|discriminate].
  now intros [= <-].
Qed.

(** Whether the configuration loads does not depend on the globals. *)
Lemma readYml_is_Some (doc : Document) (desk : Z * Z) (g1 g2 : Globals) :
  is_Some (Fix.readYml doc desk g1) -> is_Some (Fix.readYml doc desk g2).
Proof.
  unfold Fix.readYml. destruct (effective_resolution doc desk) as [w h].
  destruct (F32.to_u32 _) as [nw|]; simpl; [|intros [? [=]]].
  destruct (F32.to_u32 _) as [no|]; simpl; [|intros [? [=]]].
  intros _. eexists. reflexivity.
Qed.

Lemma globals_logInit (host : Host) (p : Process) :
  globals (logInit host p) = globals p.
Proof. reflexivity. Qed.

Lemma hooks_logInit (host : Host) (p : Process) :
  readFileHook (logInit host p) = readFileHook p /\
  mid_hooks (logInit host p) = mid_hooks p.
Proof. split; reflexivity. Qed.

Lemma readYml_inv (host : Host) (p p1 : Process) :
  Init.readYml host p = Some p1 ->
  exists g, Fix.readYml (document host) (desktop host) (globals p) = Some g /\
            globals p1 = g /\
            readFileHook p1 = readFileHook p /\
            mid_hooks p1 = mid_hooks p.
Proof.
  unfold Init.readYml.
  destruct (Fix.readYml (document host) (desktop host) (globals p)) as [g|];
    simpl; [|discriminate].
  intros [= <-]. exists g. repeat split; reflexivity.
Qed.

Lemma only_logged_trans (p q r : Process) :
  only_logged p q -> only_logged q r -> only_logged p r.
Proof.
  intros (Hg & Hm & Hr & Hh) (Hg' & Hm' & Hr' & Hh').
  repeat split; congruence.
Qed.

(** A disabled policy leaves the hooks alone. *)
Lemma injectHook_disabled (host : Host) (m : ModuleInfo) (hook : SignatureHook)
  (cb : Callback) (p : Process) :
  only_logged p (injectHook host false m hook cb p).
Proof. repeat split. Qed.

Lemma moviesFix_disabled (host : Host) (p : Process) :
  masterEnable (yml (globals p)) = false -> moviesFix host p = p.
Proof. unfold moviesFix. now intros ->. Qed.

Lemma aspectRatioFix_disabled (host : Host) (p : Process) :
  masterEnable (yml (globals p)) = false ->
  only_logged p (aspectRatioFix (injectHook host) p).
Proof. unfold aspectRatioFix. intros ->. apply injectHook_disabled. Qed.

Lemma resolutionFix_disabled (host : Host) (p : Process) :
  masterEnable (yml (globals p)) = false ->
  only_logged p (resolutionFix (injectHook host) p).
Proof. unfold resolutionFix. intros ->. apply injectHook_disabled. Qed.

Lemma hudElementsFix_disabled (host : Host) (p : Process) :
  masterEnable (yml (globals p)) = false ->
  only_logged p (hudElementsFix (injectHook host) p).
Proof. unfold hudElementsFix. intros ->. apply injectHook_disabled. Qed.

(** One run of [Main] under a configuration that loads and has
    [masterEnable] off. *)
Lemma Main_disabled (host : Host) (p : Process) :
  doc_masterEnable (document host) = false ->
  is_Some (Fix.readYml (document host) (desktop host) initial_globals) ->
  exists p', Main host (injectHook host) p = Some (1, p') /\
             readFileHook p' = readFileHook p /\
             mid_hooks p' = mid_hooks p.
Proof.
  intros Hoff Hload.
  apply (readYml_is_Some _ _ _ (globals (logInit host p))) in Hload as [g Hg].
  pose proof (readYml_masterEnable _ _ _ _ Hg) as Hme. rewrite Hoff in Hme.
  destruct (Init.readYml host (logInit host p)) as [p1|] eqn:Hp1.
  2:{ unfold Init.readYml in Hp1. rewrite Hg in Hp1. discriminate. }
  destruct (readYml_inv _ _ _ Hp1) as (g' & Hg' & Hg1 & Hr1 & Hm1).
  assert (g' = g) as -> by congruence.
  assert (Hoff1 : masterEnable (yml (globals p1)) = false) by now rewrite Hg1.
  unfold Main. rewrite Hp1. simpl. rewrite (moviesFix_disabled host p1 Hoff1).
  pose proof (aspectRatioFix_disabled host p1 Hoff1) as Ha.
  set (pa := aspectRatioFix (injectHook host) p1) in *.
  assert (Hoffa : masterEnable (yml (globals pa)) = false)
    by (destruct Ha as (-> & _); exact Hoff1).
  pose proof (resolutionFix_disabled host pa Hoffa) as Hb.
  set (pb := resolutionFix (injectHook host) pa) in *.
  assert (Hoffb : masterEnable (yml (globals pb)) = false)
    by (destruct Hb as (-> & _); exact Hoffa).
  pose proof (hudElementsFix_disabled host pb Hoffb) as Hc.
  destruct (only_logged_trans _ _ _ (only_logged_trans _ _ _ Ha Hb) Hc)
    as (_ & _ & Hr & Hm).
  destruct (hooks_logInit host p) as [Hr0 Hm0].
  eexists. split; [reflexivity|]. split; congruence.
Qed.

End InitFacts.

(** C7. With [masterEnable] false in a configuration that loads,
    initialisation puts no hook in place, neither the ReadFile hook nor any
    of the three mid-function hooks, and a second run leaves it at that. *)
Theorem masterEnable_false_installs_no_hook (host : Init.Host) (p : Init.Process) :
  doc_masterEnable (Init.document host) = false ->
  is_Some (Fix.readYml (Init.document host) (Init.desktop host) initial_globals) ->
  Init.installed_hooks p = 0%nat ->
  exists p1 p2 : Init.Process,
    Init.Main host (Init.injectHook host) p = Some (1, p1) /\
    Init.readFileHook p1 = None /\ Init.mid_hooks p1 = [] /\
    Init.installed_hooks p1 = 0%nat /\
    Init.Main host (Init.injectHook host) p1 = Some (1, p2) /\
    Init.readFileHook p2 = None /\ Init.mid_hooks p2 = [] /\
    Init.installed_hooks p2 = 0%nat.
Proof.
  intros Hoff Hload Hzero.
  assert (Hnone : Init.readFileHook p = None /\ Init.mid_hooks p = []).
  { unfold Init.installed_hooks in Hzero.
    destruct (Init.readFileHook p); [discriminate|].
    destruct (Init.mid_hooks p); [now split | discriminate]. }
  destruct Hnone as [Hr Hm].
  destruct (Main_disabled host p Hoff Hload) as (p1 & H1 & Hr1 & Hm1).
  destruct (Main_disabled host p1 Hoff Hload) as (p2 & H2 & Hr2 & Hm2).
  rewrite Hr in Hr1. rewrite Hm in Hm1. rewrite Hr1 in Hr2. rewrite Hm1 in Hm2.
  exists p1, p2. unfold Init.installed_hooks.
  rewrite Hr1, Hm1, Hr2, Hm2. repeat split; assumption.
Qed.

Lemma masterEnable_false_installs_no_hook_witness :
  exists p1 p2 : Init.Process,
    Init.Main (Examples.toy_host Examples.doc_disabled 0x70000000 0x70001000)
      (Init.injectHook (Examples.toy_host Examples.doc_disabled 0x70000000 0x70001000))
      (Init.initial_process 0x400000) = Some (1, p1) /\
    Init.installed_hooks p1 = 0%nat /\
    Init.Main (Examples.toy_host Examples.doc_disabled 0x70000000 0x70001000)
      (Init.injectHook (Examples.toy_host Examples.doc_disabled 0x70000000 0x70001000))
      p1 = Some (1, p2) /\
    Init.installed_hooks p2 = 0%nat.
Proof.
  destruct (masterEnable_false_installs_no_hook
              (Examples.toy_host Examples.doc_disabled 0x70000000 0x70001000)
              (Init.initial_process 0x400000) eq_refl)
    as (p1 & p2 & H1 & _ & _ & Hz1 & H2 & _ & _ & Hz2).
  - vm_compute. eexists. reflexivity.
  - reflexivity.
  - exists p1, p2. repeat split; assumption.
Defined.

(** C8. When [moviesFix] cannot get the handle of [KernelBase.dll] or the
    address of [ReadFile], it logs one line and returns with every hook as
    it was; [Main] goes on with the aspect-ratio, resolution and HUD
    installers on that state and returns [true]. *)
Theorem moviesFix_failure_is_contained
  (host : Init.Host)
  (injectHook : bool -> Init.ModuleInfo -> Init.SignatureHook -> Init.Callback
                -> Init.Process -> Init.Process)
  (p p1 : Init.Process) :
  Init.readYml host (Init.logInit host p) = Some p1 ->
  masterEnable (yml (Init.globals p1)) = true ->
  Init.GetModuleHandleA host "KernelBase.dll" = 0 \/
  Init.GetProcAddress host (Init.GetModuleHandleA host "KernelBase.dll") "ReadFile" = 0 ->
  (exists dll_or_function : string,
      Init.moviesFix host p1
      = Init.LOG p1 (if (Init.GetModuleHandleA host "KernelBase.dll" =? 0)%Z
                     then "Failed to get handle to {:s}"
                     else "Failed to get address of {:s}")%string
          [Init.ArgS dll_or_function]) /\
  Init.readFileHook (Init.moviesFix host p1) = Init.readFileHook p1 /\
  Init.mid_hooks (Init.moviesFix host p1) = Init.mid_hooks p1 /\
  Init.globals (Init.moviesFix host p1) = Init.globals p1 /\
  Init.Main host injectHook p
  = Some (1, Init.hudElementsFix injectHook
               (Init.resolutionFix injectHook
                  (Init.aspectRatioFix injectHook (Init.moviesFix host p1)))).
Proof.
  intros Hyml Hme Hfail.
  assert (Hfix : exists line, Init.moviesFix host p1 = Init.LOG p1
            (if (Init.GetModuleHandleA host "KernelBase.dll" =? 0)%Z
             then "Failed to get handle to {:s}"
             else "Failed to get address of {:s}")%string [Init.ArgS line]).
  { unfold Init.moviesFix. rewrite Hme. simpl.
    destruct (Z.eqb_spec (Init.GetModuleHandleA host "KernelBase.dll") 0) as [E|E].
    - eexists. reflexivity.
    - destruct Hfail as [Hfail|Hfail]; [contradiction|].
      rewrite Hfail. simpl. eexists. reflexivity. }
  destruct Hfix as [line Hfix].
  split; [now exists line|].
  rewrite Hfix. repeat split.
  unfold Init.Main. rewrite Hyml. simpl. now rewrite Hfix.
Qed.

(** With [KernelBase.dll] out of reach and the three signatures in the
    image, the ReadFile hook is missing and the three mid-function hooks
    are in place. *)
Lemma moviesFix_failure_is_contained_witness :
  exists p' : Init.Process,
    Init.Main (Examples.toy_host Examples.doc_3440x1440 0 0)
      (Init.injectHook (Examples.toy_host Examples.doc_3440x1440 0 0))
      (Init.initial_process 0x400000) = Some (1, p') /\
    Init.readFileHook p' = None /\
    Init.mid_hooks p'
    = [ {| Init.hook_address := 0x400001;
           Init.hook_callback := Init.AspectRatioCallback |};
        {| Init.hook_address := 0x400022;
           Init.hook_callback := Init.ResolutionCallback |};
        {| Init.hook_address := 0x400027;
           Init.hook_callback := Init.HudElementsCallback |} ].
Proof.
  pose (host := Examples.toy_host Examples.doc_3440x1440 0 0).
  pose (p1 := default (Init.initial_process 0)
                (Init.readYml host (Init.logInit host (Init.initial_process 0x400000)))).
  destruct (moviesFix_failure_is_contained host (Init.injectHook host)
              (Init.initial_process 0x400000) p1)
    as (_ & _ & _ & _ & HMain).
  - vm_compute. reflexivity.
  - vm_compute. reflexivity.
  - left. reflexivity.
  - eexists. split; [exact HMain|]. split; vm_compute; reflexivity.
Defined.

(** * Further properties *)

(** ** [readYml] and the two register callbacks *)

Section MoreFixFacts.

Lemma readYml_fields (doc : Document) (desktop : Z * Z) (g g' : Globals) :
  Fix.readYml doc desktop g = Some g' ->
  width (resolution (yml g')) = fst (effective_resolution doc desktop) /\
  height (resolution (yml g')) = snd (effective_resolution doc desktop) /\
  aspectRatio (resolution (yml g'))
  = F32.div (F32.of_u32 (width (resolution (yml g'))))
      (F32.of_u32 (height (resolution (yml g')))) /\
  isMoviePlaying g' = isMoviePlaying g.
Proof.
  unfold Fix.readYml. destruct (effective_resolution doc desktop) as [w h].
  destruct (F32.to_u32 _) as [nw|]; simpl; [|discriminate].
  destruct (F32.to_u32 _) as [no|]; simpl; [|discriminate].
  intros [= <-]. simpl. repeat split.
Qed.

(** X1. The aspect-ratio callback stores the aspect ratio [readYml] computed,
    [f32(width) / f32(height)], in lane 0 of [xmm0] on every call, whatever
    the movie flag says; the value is a 32-bit pattern, nothing else in
    the context changes, and a second call changes nothing more. *)
Theorem aspectRatio_callback_unconditional
  (doc : Document) (desktop : Z * Z) (g0 g : Globals) (ctx : Context) (b : bool) :
  Fix.readYml doc desktop g0 = Some g ->
  let ctx' := aspectRatio_callback (set_isMoviePlaying g b) ctx in
  ctx' = set_xmm0 ctx
           {| f32_0 := F32.bits
                         (F32.div (F32.of_u32 (width (resolution (yml g))))
                                  (F32.of_u32 (height (resolution (yml g)))));
              f32_1 := f32_1 (xmm0 ctx);
              f32_2 := f32_2 (xmm0 ctx);
              f32_3 := f32_3 (xmm0 ctx) |} /\
  0 <= f32_0 (xmm0 ctx') < u32_modulus /\
  aspectRatio_callback (set_isMoviePlaying g b) ctx' = ctx'.
Proof.
  intros Hyml ctx'.
  destruct (readYml_fields doc desktop g0 g Hyml) as (_ & _ & Hasp & _).
  subst ctx'. unfold aspectRatio_callback, set_f32_0. simpl. rewrite Hasp.
  split; [reflexivity|]. split; [|reflexivity].
  apply bits_range, div_valid.
Qed.

Lemma aspectRatio_callback_unconditional_witness :
  f32_0 (xmm0 (aspectRatio_callback
                 (set_isMoviePlaying Examples.globals_3440x1440 true)
                 (Examples.ctx_at 0)))
  = 0x4018E38E.
Proof.
  destruct (aspectRatio_callback_unconditional Examples.doc_3440x1440 (1920, 1080)
              initial_globals Examples.globals_3440x1440 (Examples.ctx_at 0) true)
    as (Hctx & _ & _).
  - vm_compute. reflexivity.
  - rewrite Hctx. vm_compute. reflexivity.
Defined.

(** [readYml] on a resolution below 65536 in both directions and not
    narrower than its native width. *)
Lemma readYml_wide (doc : Document) (desktop : Z * Z) (g : Globals) (w h : Z) :
  effective_resolution doc desktop = (w, h) ->
  0 <= h < 65536 -> 16 * h / 9 <= w < 65536 ->
  exists g' : Globals,
    Fix.readYml doc desktop g = Some g' /\
    width (resolution (yml g')) = w /\ height (resolution (yml g')) = h /\
    nativeWidth g' = 16 * h / 9 /\ nativeOffset g' = (w - 16 * h / 9) / 2.
Proof.
  intros Heff Hh Hw.
  assert (Hnw : 0 <= 16 * h / 9) by (apply Z.div_pos; lia).
  unfold Fix.readYml. rewrite Heff, (nativeWidth_floor h Hh). simpl.
  assert (Hd : u32_wrap (w - 16 * h / 9) = w - 16 * h / 9)
    by (unfold u32_wrap, u32_modulus; apply Z.mod_small; lia).
  rewrite Hd, (nativeOffset_half (w - 16 * h / 9)) by lia. simpl.
  eexists. split; [reflexivity|]. simpl. repeat split.
Qed.

(** X2. When either dimension of the document is zero, both are taken from
    the desktop, the other configured dimension being discarded; for a
    desktop below 65536 in both directions and at least as wide as 16:9
    [readYml] then succeeds with the desktop's width and height and the
    native width of the desktop's height. *)
Theorem readYml_zero_dimension_uses_desktop
  (doc : Document) (desktop : Z * Z) (g : Globals) :
  doc_width doc = 0 \/ doc_height doc = 0 ->
  0 <= snd desktop < 65536 ->
  16 * snd desktop / 9 <= fst desktop < 65536 ->
  exists g' : Globals,
    Fix.readYml doc desktop g = Some g' /\
    width (resolution (yml g')) = fst desktop /\
    height (resolution (yml g')) = snd desktop /\
    nativeWidth g' = 16 * snd desktop / 9.
Proof.
  intros Hzero Hh Hw.
  assert (Hnw : 0 <= 16 * snd desktop / 9) by (apply Z.div_pos; lia).
  assert (Heff : effective_resolution doc desktop = (fst desktop, snd desktop)).
  { unfold effective_resolution.
    assert ((doc_width doc =? 0) || (doc_height doc =? 0) = true) as ->.
    { apply orb_true_iff. destruct Hzero as [->| ->]; auto. }
    unfold u32_wrap, u32_modulus. rewrite !Z.mod_small by lia. reflexivity. }
  destruct (readYml_wide doc desktop g _ _ Heff Hh Hw)
    as (g' & Hrun & Hwd & Hht & Hn & _).
  exists g'. repeat split; assumption.
Qed.

Lemma readYml_zero_dimension_uses_desktop_witness :
  exists g' : Globals,
    Fix.readYml Examples.doc_auto (3440, 1440) initial_globals = Some g' /\
    width (resolution (yml g')) = 3440 /\
    height (resolution (yml g')) = 1440 /\
    nativeWidth g' = 2560.
Proof.
  destruct (readYml_zero_dimension_uses_desktop Examples.doc_auto (3440, 1440)
              initial_globals) as (g' & Hrun & Hw & Hh & Hn).
  - left. reflexivity.
  - simpl. lia.
  - simpl. split; [vm_compute; discriminate | lia].
  - exists g'. repeat split; assumption.
Defined.

(** X3. [readYml] takes nothing from the globals it overwrites but the movie
    flag: run again on its own result it returns that result, and a run
    from other globals with the same flag gives the same result. *)
Theorem readYml_idempotent (doc : Document) (desktop : Z * Z) (g g' g2 : Globals) :
  Fix.readYml doc desktop g = Some g' ->
  Fix.readYml doc desktop g' = Some g' /\
  (isMoviePlaying g2 = isMoviePlaying g -> Fix.readYml doc desktop g2 = Some g').
Proof.
  unfold Fix.readYml. destruct (effective_resolution doc desktop) as [w h].
  destruct (F32.to_u32 _) as [nw|]; simpl; [|discriminate].
  destruct (F32.to_u32 _) as [no|]; simpl; [|discriminate].
  intros [= <-]. simpl. split; [reflexivity|]. now intros ->.
Qed.

Lemma readYml_idempotent_witness :
  Fix.readYml Examples.doc_3440x1440 (1920, 1080) Examples.globals_3440x1440
  = Some Examples.globals_3440x1440.
Proof.
  refine (proj1 (readYml_idempotent Examples.doc_3440x1440 (1920, 1080)
                   initial_globals Examples.globals_3440x1440 initial_globals _)).
  vm_compute. reflexivity.
Defined.

Lemma nativeOffset_wraps_checked :
  holds_on 16 (2 ^ Z.of_nat 16) 1 nativeOffset_wraps = true.
Proof. vm_cast_no_check (eq_refl true). Qed.

(** X4. For a resolution narrower than its native width (4:3, 16:10, ...) the
    unsigned difference [width - nativeWidth] wraps: with both dimensions
    below 65536, [readYml] still succeeds, but the native offset it stores
    is a value between [0x7FFF8000] and [0x80000000], not half a
    difference. *)
Theorem readYml_narrow_offset_wraps
  (doc : Document) (desktop : Z * Z) (g : Globals) (w h : Z) :
  effective_resolution doc desktop = (w, h) ->
  0 <= h < 65536 ->
  0 <= w < 16 * h / 9 ->
  16 * h / 9 - w <= 65536 ->
  exists g' : Globals,
    Fix.readYml doc desktop g = Some g' /\
    nativeWidth g' = 16 * h / 9 /\
    0x7FFF8000 <= nativeOffset g' <= 0x80000000.
Proof.
  intros Heff Hh Hw Hshort.
  unfold Fix.readYml. rewrite Heff, (nativeWidth_floor h Hh). simpl.
  pose proof (holds_on_spec _ 16 1 nativeOffset_wraps_checked (16 * h / 9 - w)
                ltac:(change (2 ^ Z.of_nat 16) with 65536; lia)) as Ht.
  unfold nativeOffset_wraps in Ht.
  replace (- (16 * h / 9 - w)) with (w - 16 * h / 9) in Ht by lia.
  destruct (F32.to_u32 _) as [no|]; [|discriminate]. simpl.
  apply andb_prop in Ht as [Hlo Hhi].
  apply Z.leb_le in Hlo. apply Z.leb_le in Hhi.
  eexists. split; [reflexivity|]. simpl. split; [reflexivity | lia].
Qed.

Lemma readYml_narrow_offset_wraps_witness :
  exists g' : Globals,
    Fix.readYml Examples.doc_1024x768 (1920, 1080) initial_globals = Some g' /\
    nativeWidth g' = 1365 /\
    nativeOffset g' = 0x7FFFFF80.
Proof.
  destruct (readYml_narrow_offset_wraps Examples.doc_1024x768 (1920, 1080)
              initial_globals 1024 768 eq_refl)
    as (g' & Hrun & Hn & _).
  - lia.
  - split; [lia | vm_compute; reflexivity].
  - vm_compute. discriminate.
  - exists g'. split; [exact Hrun|]. split; [exact Hn|].
    revert Hrun. vm_compute. now intros [= <-].
Defined.

End MoreFixFacts.

(** ** The HUD callback on memory *)

Section MoreHudFacts.

Import Mem.

Lemma store_bytes_lookup_other (bs : list byte) (m : memory) (a k : Z) :
  k < a \/ a + Z.of_nat (length bs) <= k ->
  store_bytes m a bs !! k = m !! k.
Proof.
  revert a. induction bs as [|b bs IH]; intros a Hk; [reflexivity|].
  simpl length in Hk. cbn [store_bytes].
  rewrite lookup_insert_ne by lia. apply IH. lia.
Qed.

(** Storing the bytes that are there changes nothing. *)
Lemma store_bytes_same (bs : list byte) (m : memory) (a : Z) :
  load_bytes m a (length bs) = Some bs -> store_bytes m a bs = m.
Proof.
  revert a. induction bs as [|b bs IH]; intros a Hl; [reflexivity|].
  simpl in Hl. cbn [store_bytes].
  destruct (m !! a) as [b'|] eqn:Ea; simpl in Hl; [|discriminate].
  destruct (load_bytes m (a + 1) (length bs)) as [bs'|] eqn:El; simpl in Hl;
    [|discriminate].
  injection Hl as -> ->. rewrite (IH _ El). now apply insert_id.
Qed.

(** A store maps no new address and unmaps none. *)
Lemma store_bytes_dom (bs : list byte) (m : memory) (a : Z) :
  is_Some (load_bytes m a (length bs)) -> dom (store_bytes m a bs) = dom m.
Proof.
  revert a. induction bs as [|b bs IH]; intros a [l Hl]; [reflexivity|].
  simpl in Hl. cbn [store_bytes].
  destruct (m !! a) as [b'|] eqn:Ea; simpl in Hl; [|discriminate].
  destruct (load_bytes m (a + 1) (length bs)) as [bs'|] eqn:El; simpl in Hl;
    [|discriminate].
  rewrite dom_insert_L, IH by eauto.
  apply subseteq_union_1_L, singleton_subseteq_l, elem_of_dom. eauto.
Qed.

Local Arguments store_bytes : simpl never.
Local Arguments load_bytes : simpl never.
Local Arguments le_split : simpl never.

(** The three words the callback touches do not overlap. *)
Lemma hud_addresses_apart (a : Z) :
  let A := u32_wrap (a + 0x00) in
  let B := u32_wrap (a + 0x30) in
  let C := u32_wrap (a + 0x3C) in
  (A + 4 <= B \/ B + 4 <= A) /\ (A + 4 <= C \/ C + 4 <= A) /\
  (B + 4 <= C \/ C + 4 <= B).
Proof.
  unfold u32_wrap, u32_modulus. cbv zeta.
  pose proof (Z.div_mod (a + 0x00) 0x100000000 ltac:(lia)).
  pose proof (Z.div_mod (a + 0x30) 0x100000000 ltac:(lia)).
  pose proof (Z.div_mod (a + 0x3C) 0x100000000 ltac:(lia)).
  pose proof (Z.mod_pos_bound (a + 0x00) 0x100000000 ltac:(lia)).
  pose proof (Z.mod_pos_bound (a + 0x30) 0x100000000 ltac:(lia)).
  pose proof (Z.mod_pos_bound (a + 0x3C) 0x100000000 ltac:(lia)).
  lia.
Qed.

(** The callback taken apart: what it returns in each of its cases. *)
Lemma hud_callback_cases (g : Globals) (ctx : Context) (m : memory) :
  let A := u32_wrap (eax ctx + 0x00) in
  let B := u32_wrap (eax ctx + 0x30) in
  let C := u32_wrap (eax ctx + 0x3C) in
  match load_u32 m B, load_u32 m C with
  | Some scaler0, Some scaler1 =>
      if hud_guard scaler0 scaler1 then
        match load_bytes m A 4 with
        | Some _ =>
            hud_callback g ctx m
            = Some (ctx, store_bytes
                           (store_bytes m A (le_split 4 (F32.bits (hud_field_A g))))
                           B (le_split 4 (F32.bits (hud_field_B g))))
        | None => hud_callback g ctx m = None
        end
      else hud_callback g ctx m = Some (ctx, m)
  | _, _ => hud_callback g ctx m = None
  end.
Proof.
  intros A B C. unfold hud_callback. fold A B C.
  destruct (load_u32 m B) as [scaler0|] eqn:H0; simpl; [|reflexivity].
  destruct (load_u32 m C) as [scaler1|] eqn:H1; simpl; [|reflexivity].
  destruct (hud_guard scaler0 scaler1); [|reflexivity].
  unfold store_u32.
  destruct (load_bytes m A 4) as [old|] eqn:HA; simpl; [|reflexivity].
  destruct (hud_addresses_apart (eax ctx)) as (HAB & _ & _). fold A B in HAB.
  rewrite load_bytes_store_other by (rewrite length_le_split; simpl; lia).
  destruct (load_u32_is_Some m B scaler0 H0) as [oldB HB]. rewrite HB. reflexivity.
Qed.

(** X5. The callback never changes a register, maps or unmaps no address,
    leaves every byte outside the words at [eax + 0x00] and [eax + 0x30]
    as it was, and in particular never writes the second guard word at
    [eax + 0x3C]. *)
Theorem hud_callback_frame (g : Globals) (ctx ctx' : Context) (m m' : memory) :
  hud_callback g ctx m = Some (ctx', m') ->
  let A := u32_wrap (eax ctx + 0x00) in
  let B := u32_wrap (eax ctx + 0x30) in
  let C := u32_wrap (eax ctx + 0x3C) in
  ctx' = ctx /\
  dom m' = dom m /\
  (forall k : Z, ~ A <= k < A + 4 -> ~ B <= k < B + 4 -> m' !! k = m !! k) /\
  load_u32 m' C = load_u32 m C.
Proof.
  intros Hrun A B C.
  pose proof (hud_callback_cases g ctx m) as Hc. cbv zeta in Hc. fold A B C in Hc.
  destruct (hud_addresses_apart (eax ctx)) as (HAB & HAC & HBC).
  fold A B C in HAB, HAC, HBC.
  destruct (load_u32 m B) as [scaler0|] eqn:H0; [|congruence].
  destruct (load_u32 m C) as [scaler1|] eqn:H1; [|congruence].
  destruct (hud_guard scaler0 scaler1).
  - destruct (load_bytes m A 4) as [old|] eqn:HA; [|congruence].
    rewrite Hc in Hrun. injection Hrun as <- <-.
    split; [reflexivity|]. split; [|split].
    + rewrite store_bytes_dom.
      2:{ rewrite length_le_split.
          rewrite load_bytes_store_other by (rewrite length_le_split; simpl; lia).
          exact (load_u32_is_Some m B scaler0 H0). }
      rewrite store_bytes_dom; [reflexivity|].
      rewrite length_le_split, HA. eauto.
    + intros k HkA HkB.
      rewrite !store_bytes_lookup_other by (rewrite length_le_split; simpl; lia).
      reflexivity.
    + rewrite !load_u32_store_other by lia. exact H1.
  - rewrite Hc in Hrun. injection Hrun as <- <-.
    split; [reflexivity|]. split; [reflexivity|]. split; [reflexivity | exact H1].
Qed.

Lemma hud_callback_frame_witness :
  exists m' : memory,
    hud_callback Examples.globals_3440x1440 (Examples.ctx_at 0x1000)
      (Examples.hud_memory 0x1000 0xBF800000 0x3F800000)
    = Some (Examples.ctx_at 0x1000, m') /\
    dom m' = dom (Examples.hud_memory 0x1000 0xBF800000 0x3F800000) /\
    load_u32 m' (u32_wrap (eax (Examples.ctx_at 0x1000) + 0x3C)) = Some 0x3F800000.
Proof.
  destruct (hud_callback_formula_run Examples.globals_3440x1440
              (Examples.ctx_at 0x1000)
              (Examples.hud_memory 0x1000 0xBF800000 0x3F800000)
              0xBF800000 0x3F800000) as (m' & Hrun & _).
  - vm_compute. reflexivity.
  - vm_compute. reflexivity.
  - reflexivity.
  - vm_compute. eexists. reflexivity.
  - destruct (hud_callback_frame _ _ _ _ _ Hrun) as (_ & Hdom & _ & HC).
    exists m'. split; [exact Hrun|]. split; [exact Hdom|].
    rewrite HC. vm_compute. reflexivity.
Defined.

(** X6. Running the callback again on what it left changes nothing: either
    the guard passes again and the same two values are stored, or it no
    longer passes and nothing is stored. *)
Theorem hud_callback_idempotent (g : Globals) (ctx ctx' : Context) (m m' : memory) :
  hud_callback g ctx m = Some (ctx', m') ->
  hud_callback g ctx' m' = Some (ctx', m').
Proof.
  intros Hrun.
  pose proof (hud_callback_cases g ctx m) as Hc. cbv zeta in Hc.
  destruct (hud_addresses_apart (eax ctx)) as (HAB & HAC & HBC).
  set (A := u32_wrap (eax ctx + 0x00)) in *.
  set (B := u32_wrap (eax ctx + 0x30)) in *.
  set (C := u32_wrap (eax ctx + 0x3C)) in *.
  destruct (load_u32 m B) as [scaler0|] eqn:H0; [|congruence].
  destruct (load_u32 m C) as [scaler1|] eqn:H1; [|congruence].
  destruct (hud_guard scaler0 scaler1).
  2:{ rewrite Hc in Hrun. injection Hrun as <- <-. exact Hc. }
  destruct (load_bytes m A 4) as [old|] eqn:HA; [|congruence].
  rewrite Hc in Hrun. injection Hrun as <- <-. clear Hc.
  set (bsA := le_split 4 (F32.bits (hud_field_A g))).
  set (bsB := le_split 4 (F32.bits (hud_field_B g))).
  set (m2 := store_bytes (store_bytes m A bsA) B bsB).
  assert (HlA : load_bytes m2 A 4 = Some bsA).
  { unfold m2. rewrite load_bytes_store_other
      by (unfold bsB; rewrite length_le_split; simpl; lia).
    exact (load_bytes_store_same bsA m A). }
  assert (HlB : load_bytes m2 B 4 = Some bsB).
  { exact (load_bytes_store_same bsB (store_bytes m A bsA) B). }
  pose proof (hud_callback_cases g ctx m2) as Hc. cbv zeta in Hc.
  fold A B C bsA bsB in Hc.
  assert (H0' : load_u32 m2 B = Some (F32.bits (hud_field_B g))).
  { apply load_u32_store_same, bits_range, hud_field_B_valid. }
  assert (H1' : load_u32 m2 C = Some scaler1).
  { unfold m2, bsA, bsB. rewrite !load_u32_store_other by lia. exact H1. }
  rewrite H0', H1' in Hc.
  destruct (hud_guard (F32.bits (hud_field_B g)) scaler1); [|exact Hc].
  rewrite HlA in Hc. rewrite Hc.
  rewrite (store_bytes_same bsA m2 A HlA), (store_bytes_same bsB m2 B HlB).
  reflexivity.
Qed.

Lemma hud_callback_idempotent_witness :
  exists m' : memory,
    hud_callback Examples.globals_3440x1440 (Examples.ctx_at 0x1000)
      (Examples.hud_memory 0x1000 0xBF800000 0x3F800000)
    = Some (Examples.ctx_at 0x1000, m') /\
    hud_callback Examples.globals_3440x1440 (Examples.ctx_at 0x1000) m'
    = Some (Examples.ctx_at 0x1000, m').
Proof.
  destruct (hud_callback_formula_run Examples.globals_3440x1440
              (Examples.ctx_at 0x1000)
              (Examples.hud_memory 0x1000 0xBF800000 0x3F800000)
              0xBF800000 0x3F800000) as (m' & Hrun & _).
  - vm_compute. reflexivity.
  - vm_compute. reflexivity.
  - reflexivity.
  - vm_compute. eexists. reflexivity.
  - exists m'. split; [exact Hrun|].
    exact (hud_callback_idempotent _ _ _ _ _ Hrun).
Defined.

(** X7. The callback faults when the first guard word, at [eax + 0x30],
    is unreadable; when the first test passes and the second guard word,
    at [eax + 0x3C], is unreadable; and when both tests pass and the word
    at [eax + 0x00] is not mapped. *)
Theorem hud_callback_faults (g : Globals) (ctx : Context) (m : memory) :
  let A := u32_wrap (eax ctx + 0x00) in
  let B := u32_wrap (eax ctx + 0x30) in
  let C := u32_wrap (eax ctx + 0x3C) in
  (load_u32 m B = None -> hud_callback g ctx m = None) /\
  (forall scaler0 : Z,
      load_u32 m B = Some scaler0 ->
      Z.land scaler0 0xBF000000 = 0xBF000000 ->
      load_u32 m C = None ->
      hud_callback g ctx m = None) /\
  (forall scaler0 scaler1 : Z,
      load_u32 m B = Some scaler0 ->
      load_u32 m C = Some scaler1 ->
      hud_guard scaler0 scaler1 = true ->
      load_bytes m A 4 = None ->
      hud_callback g ctx m = None).
Proof.
  intros A B C.
  pose proof (hud_callback_cases g ctx m) as Hc. cbv zeta in Hc. fold A B C in Hc.
  split; [|split].
  - intros H0. rewrite H0 in Hc. exact Hc.
  - intros scaler0 H0 _ H1. rewrite H0, H1 in Hc. exact Hc.
  - intros scaler0 scaler1 H0 H1 Hg HA. rewrite H0, H1, Hg, HA in Hc. exact Hc.
Qed.

Lemma hud_callback_faults_witness :
  hud_callback Examples.globals_3440x1440 (Examples.ctx_at 0x1000) ∅ = None /\
  hud_callback Examples.globals_3440x1440 (Examples.ctx_at 0x1000)
    (store_bytes ∅ 0x1030 (le_split 4 0xBF800000)) = None /\
  hud_callback Examples.globals_3440x1440 (Examples.ctx_at 0x1000)
    (store_bytes (store_bytes ∅ 0x1030 (le_split 4 0xBF800000))
       0x103C (le_split 4 0x3F800000)) = None.
Proof.
  split; [|split].
  - apply (proj1 (hud_callback_faults Examples.globals_3440x1440
                    (Examples.ctx_at 0x1000) ∅)).
    reflexivity.
  - apply (proj1 (proj2 (hud_callback_faults Examples.globals_3440x1440
                           (Examples.ctx_at 0x1000)
                           (store_bytes ∅ 0x1030 (le_split 4 0xBF800000))))
             0xBF800000).
    + vm_compute. reflexivity.
    + reflexivity.
    + vm_compute. reflexivity.
  - apply (proj2 (proj2 (hud_callback_faults Examples.globals_3440x1440
                           (Examples.ctx_at 0x1000)
                           (store_bytes (store_bytes ∅ 0x1030 (le_split 4 0xBF800000))
                              0x103C (le_split 4 0x3F800000))))
             0xBF800000 0x3F800000).
    + vm_compute. reflexivity.
    + vm_compute. reflexivity.
    + reflexivity.
    + vm_compute. reflexivity.
Defined.

End MoreHudFacts.

(** ** Runs of intercepted reads *)

Section MoreMovieFacts.

Context {OS : Type}.
Variable query : Z -> OS -> (Z * string) * OS.
Variable original : Movie.ReadFileArgs -> OS -> Z * OS.

Lemma hooked_reads_cons (a : Movie.ReadFileArgs) (calls : list Movie.ReadFileArgs)
  (g : Globals) (os : OS) :
  hooked_reads query original (a :: calls) g os
  = let step := Movie.kernelBaseDllReadFileHook query original a g os in
    let rest := hooked_reads query original calls (fst (snd step)) (snd (snd step)) in
    (fst step :: fst rest, snd rest).
Proof.
  cbn [hooked_reads].
  destruct (Movie.kernelBaseDllReadFileHook query original a g os) as [r [g1 os1]].
  simpl. now destruct (hooked_reads query original calls g1 os1).
Qed.

Lemma hooked_reads_app (l1 l2 : list Movie.ReadFileArgs) (g : Globals) (os : OS) :
  hooked_reads query original (l1 ++ l2) g os
  = let first := hooked_reads query original l1 g os in
    let rest := hooked_reads query original l2 (fst (snd first)) (snd (snd first)) in
    (fst first ++ fst rest, snd rest).
Proof.
  revert g os. induction l1 as [|a l1 IH]; intros g os.
  - simpl. now destruct (hooked_reads query original l2 g os).
  - rewrite <- app_comm_cons, !hooked_reads_cons. cbv zeta. rewrite IH. reflexivity.
Qed.

(** Reads on handles that cannot be resolved leave the globals alone. *)
Lemma hooked_reads_unresolved (calls : list Movie.ReadFileArgs) :
  (forall a os, In a calls -> fst (fst (query (Movie.hFile a) os)) = 0) ->
  forall g os, fst (snd (hooked_reads query original calls g os)) = g.
Proof.
  induction calls as [|a calls IH]; intros Hall g os; [reflexivity|].
  rewrite hooked_reads_cons. cbv zeta. simpl snd.
  rewrite kernelBaseDllReadFileHook_eq. cbv zeta. simpl.
  rewrite (Hall a os (or_introl eq_refl)). simpl.
  apply IH. intros b os' Hb. apply Hall. now right.
Qed.

End MoreMovieFacts.

(** X8. With a path query that leaves the operating system as it found it,
    a run of hooked reads returns what the same reads return without the
    hook, one by one, and leaves the operating system in the same state. *)
Theorem hooked_reads_transparent
  {OS : Type} (query : Z -> OS -> (Z * string) * OS)
  (original : Movie.ReadFileArgs -> OS -> Z * OS)
  (calls : list Movie.ReadFileArgs) (g : Globals) (os : OS) :
  (forall h os', snd (query h os') = os') ->
  fst (hooked_reads query original calls g os) = fst (plain_reads original calls os) /\
  snd (snd (hooked_reads query original calls g os)) = snd (plain_reads original calls os).
Proof.
  intros Hpure. revert g os. induction calls as [|a calls IH]; intros g os.
  - split; reflexivity.
  - rewrite hooked_reads_cons. cbv zeta.
    rewrite kernelBaseDllReadFileHook_eq. cbv zeta. simpl.
    rewrite Hpure. destruct (original a os) as [r os1]. simpl.
    specialize (IH (if fst (fst (query (Movie.hFile a) os)) =? 0
                    then g
                    else set_isMoviePlaying g
                           (Movie.movie_flag (snd (fst (query (Movie.hFile a) os)))))
                   os1).
    destruct IH as [IHr IHs]. rewrite IHr, IHs.
    destruct (plain_reads original calls os1). split; reflexivity.
Qed.

Lemma hooked_reads_transparent_witness :
  fst (hooked_reads Examples.toy_query Examples.toy_ReadFile
         [Examples.read_of 1; Examples.read_of 7; Examples.read_of 2]
         initial_globals 0%nat)
  = [512; 512; 512] /\
  snd (snd (hooked_reads Examples.toy_query Examples.toy_ReadFile
              [Examples.read_of 1; Examples.read_of 7; Examples.read_of 2]
              initial_globals 0%nat))
  = 3%nat.
Proof.
  destruct (hooked_reads_transparent Examples.toy_query Examples.toy_ReadFile
              [Examples.read_of 1; Examples.read_of 7; Examples.read_of 2]
              initial_globals 0%nat) as [Hr Hs].
  - intros h os'. unfold Examples.toy_query.
    destruct (h =? 1); [reflexivity|]. destruct (h =? 2); reflexivity.
  - rewrite Hr, Hs. split; reflexivity.
Defined.

(** X9. The movie flag is decided by the most recent read whose handle could
    be resolved: after any reads, a read resolved to [fileName], and then
    reads on handles that cannot be resolved, the flag is the one
    [fileName] asks for, whatever it was before; no other global has
    changed. *)
Theorem movie_flag_of_last_resolved_read
  {OS : Type} (query : Z -> OS -> (Z * string) * OS)
  (original : Movie.ReadFileArgs -> OS -> Z * OS)
  (before after : list Movie.ReadFileArgs) (a : Movie.ReadFileArgs)
  (g : Globals) (os : OS) (n : Z) (fileName : string) :
  let os1 := snd (snd (hooked_reads query original before g os)) in
  fst (query (Movie.hFile a) os1) = (n, fileName) ->
  n <> 0 ->
  (forall b os', In b after -> fst (fst (query (Movie.hFile b) os')) = 0) ->
  fst (snd (hooked_reads query original (before ++ a :: after) g os))
  = set_isMoviePlaying g (Movie.movie_flag fileName).
Proof.
  intros os1 Hq Hn Hafter. subst os1.
  rewrite hooked_reads_app. cbv zeta. cbn [fst snd].
  rewrite hooked_reads_cons. cbv zeta. cbn [fst snd].
  rewrite hooked_reads_unresolved by exact Hafter.
  rewrite kernelBaseDllReadFileHook_eq. cbv zeta. cbn [fst snd]. rewrite Hq.
  cbn [fst snd].
  destruct (Z.eqb_spec n 0) as [|_]; [contradiction|].
  assert (Hbefore : forall l g0 os0,
             exists b, fst (snd (hooked_reads query original l g0 os0))
                       = set_isMoviePlaying g0 b).
  { induction l as [|c l IH]; intros g0 os0.
    - exists (isMoviePlaying g0). simpl. now rewrite set_isMoviePlaying_same.
    - rewrite hooked_reads_cons. cbv zeta. simpl snd.
      rewrite kernelBaseDllReadFileHook_eq. cbv zeta. simpl.
      destruct (fst (fst (query (Movie.hFile c) os0)) =? 0).
      + apply IH.
      + destruct (IH (set_isMoviePlaying g0
                        (Movie.movie_flag (snd (fst (query (Movie.hFile c) os0)))))
                     (snd (original c (snd (query (Movie.hFile c) os0)))))
          as [b Hb].
        exists b. rewrite Hb. reflexivity. }
  destruct (Hbefore before g os) as [b ->]. reflexivity.
Qed.

Lemma movie_flag_of_last_resolved_read_witness :
  isMoviePlaying
    (fst (snd (hooked_reads Examples.toy_query Examples.toy_ReadFile
                 ([Examples.read_of 2] ++ Examples.read_of 1 :: [Examples.read_of 7])
                 initial_globals 0%nat)))
  = true.
Proof.
  rewrite (movie_flag_of_last_resolved_read Examples.toy_query Examples.toy_ReadFile
             [Examples.read_of 2] [Examples.read_of 7] (Examples.read_of 1)
             initial_globals 0%nat 44
             "\\?\C:\GE\data\GameData\movie\intro.wmv"%string).
  - reflexivity.
  - reflexivity.
  - discriminate.
  - intros b os' [<-|[]]. reflexivity.
Defined.

(** X10. The intercept gates the resolution callback: after a read resolved to
    a [.wmv] path the callback leaves the context alone; after a read
    resolved to a path with any other extension it stores the configured
    width in lane 0 of [xmm0]. *)
Theorem resolution_callback_after_read
  {OS : Type} (query : Z -> OS -> (Z * string) * OS)
  (original : Movie.ReadFileArgs -> OS -> Z * OS)
  (a : Movie.ReadFileArgs) (g : Globals) (os : OS) (n : Z) (fileName : string)
  (ctx : Context) :
  fst (query (Movie.hFile a) os) = (n, fileName) ->
  n <> 0 ->
  let g' := fst (snd (Movie.kernelBaseDllReadFileHook query original a g os)) in
  (Movie.extension (Movie.strip_prefix fileName) = ".wmv"%string ->
   resolution_callback g' ctx = ctx) /\
  (Movie.extension (Movie.strip_prefix fileName) <> ".wmv"%string ->
   f32_0 (xmm0 (resolution_callback g' ctx))
   = F32.bits (F32.of_u32 (width (resolution (yml g))))).
Proof.
  intros Hq Hn g'. subst g'.
  rewrite kernelBaseDllReadFileHook_eq. cbv zeta. simpl. rewrite Hq. simpl.
  destruct (Z.eqb_spec n 0) as [|_]; [contradiction|].
  unfold resolution_callback. simpl.
  split; intros Hext.
  - apply movie_flag_true_iff in Hext. now rewrite Hext.
  - destruct (Movie.movie_flag fileName) eqn:E; [|reflexivity].
    now apply movie_flag_true_iff in E.
Qed.

Lemma resolution_callback_after_read_witness :
  resolution_callback
    (fst (snd (Movie.kernelBaseDllReadFileHook Examples.toy_query Examples.toy_ReadFile
                 (Examples.read_of 1) Examples.globals_3440x1440 0%nat)))
    (Examples.ctx_at 0)
  = Examples.ctx_at 0 /\
  f32_0 (xmm0 (resolution_callback
                 (fst (snd (Movie.kernelBaseDllReadFileHook
                              Examples.toy_query Examples.toy_ReadFile
                              (Examples.read_of 2) Examples.globals_3440x1440 0%nat)))
                 (Examples.ctx_at 0)))
  = 0x45570000.
Proof.
  split.
  - refine (proj1 (resolution_callback_after_read Examples.toy_query
                     Examples.toy_ReadFile (Examples.read_of 1)
                     Examples.globals_3440x1440 0%nat 44 _ (Examples.ctx_at 0)
                     eq_refl _) _).
    + discriminate.
    + reflexivity.
  - rewrite (proj2 (resolution_callback_after_read Examples.toy_query
                      Examples.toy_ReadFile (Examples.read_of 2)
                      Examples.globals_3440x1440 0%nat 27 _ (Examples.ctx_at 0)
                      eq_refl ltac:(discriminate))).
    + reflexivity.
    + vm_compute. discriminate.
Defined.

Section DirectoryFacts.

Local Open Scope string_scope.
Local Arguments String.append : simpl nomatch.

Lemma extension_of_last_component (q name : string) :
  Movie.after_last_separator name = None ->
  Movie.extension (q ++ String "\" name) = Movie.extension (String "\" name).
Proof.
  intros Hname.
  assert (Hlast : Movie.after_last_separator (String "\" name) = Some name)
    by (simpl; now rewrite Hname).
  unfold Movie.extension.
  rewrite (filename_app q _ name Hlast).
  unfold Movie.filename. rewrite Hlast. reflexivity.
Qed.

End DirectoryFacts.

(** X11. The flag does not look at the directory: two resolved paths of at
    least four characters of directory with the same last component set
    the same flag, so a [.wmv] file counts as a movie wherever it lies. *)
Theorem movie_flag_ignores_directory (dir1 dir2 name : string) :
  (4 <= String.length dir1)%nat ->
  (4 <= String.length dir2)%nat ->
  Movie.after_last_separator name = None ->
  Movie.movie_flag (dir1 ++ String "\" name)%string
  = Movie.movie_flag (dir2 ++ String "\" name)%string.
Proof.
  intros H1 H2 Hname. unfold Movie.movie_flag.
  destruct (strip_prefix_app dir1 (String "\" name) H1) as [q1 ->].
  destruct (strip_prefix_app dir2 (String "\" name) H2) as [q2 ->].
  now rewrite !extension_of_last_component.
Qed.

Lemma movie_flag_ignores_directory_witness :
  Movie.movie_flag ("\\?\D:\clips" ++ String "\" "holiday.wmv")%string
  = Movie.movie_flag
      ("\\?\C:\GE\data\GameData\movie" ++ String "\" "holiday.wmv")%string.
Proof.
  apply movie_flag_ignores_directory.
  - simpl. lia.
  - simpl. lia.
  - reflexivity.
Defined.

(** ** More on initialisation *)

Section MoreInitFacts.

Import Init.
Local Open Scope string_scope.

(** X12. What [moviesFix] does to the process.  It never touches the globals,
    the module or the mid-function hooks.  Disabled, it leaves the process
    as it was, log included; enabled, it appends exactly one line to the
    log.  With both lookups successful the hook object is the one
    [create_inline] returned, empty when the hook did not take, and the
    line logged says [Hooked] in either case.  The hook object changes
    only on that path. *)
Theorem moviesFix_outcome (host : Host) (p : Process) :
  let p' := moviesFix host p in
  let kernelBase := GetModuleHandleA host "KernelBase.dll" in
  let readFile := GetProcAddress host kernelBase "ReadFile" in
  globals p' = globals p /\ module p' = module p /\ mid_hooks p' = mid_hooks p /\
  (masterEnable (yml (globals p)) = false -> p' = p) /\
  (masterEnable (yml (globals p)) = true ->
   exists line, log p' = (log p ++ [line])%list) /\
  (masterEnable (yml (globals p)) = true -> kernelBase <> 0%Z -> readFile <> 0%Z ->
   readFileHook p' = (if create_inline host readFile then Some readFile else None) /\
   exists a, log p' = (log p ++ [ {| fmt := "Hooked {:s} @ {:s}+{:x}";
                                      args := a |} ])%list) /\
  (readFileHook p' <> readFileHook p ->
   masterEnable (yml (globals p)) = true /\ kernelBase <> 0%Z /\ readFile <> 0%Z).
Proof.
  intros p' kernelBase readFile. subst p'. unfold moviesFix.
  fold kernelBase. fold readFile.
  destruct (masterEnable (yml (globals p))); simpl.
  2:{ split; [reflexivity|]. split; [reflexivity|]. split; [reflexivity|].
      split; [reflexivity|]. split; [discriminate|]. split; [discriminate|].
      intros Hne. now contradiction Hne. }
  destruct (Z.eqb_spec kernelBase 0) as [Ek|Ek]; simpl.
  { split; [reflexivity|]. split; [reflexivity|]. split; [reflexivity|].
    split; [discriminate|]. split; [intros _; eexists; reflexivity|].
    split; [intros _ Hk; contradiction | intros Hne; now contradiction Hne]. }
  destruct (Z.eqb_spec readFile 0) as [Er|Er]; simpl.
  { split; [reflexivity|]. split; [reflexivity|]. split; [reflexivity|].
    split; [discriminate|]. split; [intros _; eexists; reflexivity|].
    split; [intros _ _ Hr; contradiction | intros Hne; now contradiction Hne]. }
  split; [reflexivity|]. split; [reflexivity|]. split; [reflexivity|].
  split; [discriminate|]. split; [intros _; eexists; reflexivity|].
  split.
  - intros _ _ _. split; [reflexivity|]. eexists. reflexivity.
  - intros _. split; [reflexivity|]. split; assumption.
Qed.

Lemma moviesFix_outcome_witness :
  let host :=
    {| exePath := "C:\GE\ger.exe"; compilerInfo := "MSVC";
       compiled_date := "Jan  1 2025"; compiled_time := "00:00:00";
       document := Examples.doc_3440x1440; desktop := (1920, 1080);
       GetModuleHandleA := fun _ => 0x70000000%Z;
       GetProcAddress := fun _ _ => 0x70001000%Z;
       create_inline := fun _ => false; create_mid := fun _ => true;
       image := [] |} in
  let p := set_globals (initial_process 0x400000) Examples.globals_3440x1440 in
  readFileHook (moviesFix host p) = None /\
  log (moviesFix host p)
  = [ {| fmt := "Hooked {:s} @ {:s}+{:x}";
         args := [ArgS "ReadFile"; ArgS "KernelBase.dll"; ArgZ 0x1000] |} ].
Proof.
  intros host p.
  destruct (moviesFix_outcome host p) as (_ & _ & _ & _ & _ & Hok & _).
  destruct Hok as [Hhook _]; [reflexivity | discriminate | discriminate |].
  split; [exact Hhook | reflexivity].
Defined.

Lemma readYml_constrainHud (doc : Document) (desk : Z * Z) (g g' : Globals) :
  Fix.readYml doc desk g = Some g' ->
  enable (constrainHud (feature (yml g'))) = doc_constrainHud_enable doc.
Proof.
  unfold Fix.readYml. destruct (effective_resolution doc desk) as [w h].
  destruct (F32.to_u32 _) as [nw|]; simpl; [|discriminate].
  destruct (F32.to_u32 _) as [no|]; simpl; [|discriminate].
  now intros [= <-].
Qed.

(** What one [injectHook] can do to the hooks. *)
Lemma injectHook_hooks (host : Host) (en : bool) (m : ModuleInfo)
  (hook : SignatureHook) (cb : Callback) (p : Process) :
  let p' := injectHook host en m hook cb p in
  globals p' = globals p /\ readFileHook p' = readFileHook p /\
  (mid_hooks p' = mid_hooks p \/
   en = true /\
   exists a, mid_hooks p'
             = (mid_hooks p ++ [ {| hook_address := a; hook_callback := cb |} ])%list).
Proof.
  unfold injectHook.
  destruct en; [|split; [reflexivity|]; split; [reflexivity|]; now left].
  destruct (Scanner.scan _ _) as [rel|];
    [|split; [reflexivity|]; split; [reflexivity|]; now left].
  destruct (create_mid host _);
    [|split; [reflexivity|]; split; [reflexivity|]; now left].
  simpl. split; [reflexivity|]. split; [reflexivity|].
  right. split; [reflexivity|]. eexists. reflexivity.
Qed.

End MoreInitFacts.

(** X13. With [injectHook] as the specification describes it, the first run of
    [Main] leaves at most one mid-function hook per callback; any hook is
    there only under [masterEnable], the HUD hook only if
    [constrainHud.enable] is set as well, and with [masterEnable] set and
    [constrainHud.enable] clear no HUD hook is installed whatever the
    image holds. *)
Theorem Main_hooks_are_enabled (host : Init.Host) (base r : Z) (p' : Init.Process) :
  Init.Main host (Init.injectHook host) (Init.initial_process base) = Some (r, p') ->
  NoDup (map Init.hook_callback (Init.mid_hooks p')) /\
  (Init.mid_hooks p' <> [] -> doc_masterEnable (Init.document host) = true) /\
  (Init.readFileHook p' <> None -> doc_masterEnable (Init.document host) = true) /\
  (In Init.HudElementsCallback (map Init.hook_callback (Init.mid_hooks p')) ->
   doc_masterEnable (Init.document host) = true /\
   doc_constrainHud_enable (Init.document host) = true).
Proof.
  intros HMain. unfold Init.Main in HMain.
  destruct (Init.readYml host (Init.logInit host (Init.initial_process base)))
    as [p1|] eqn:Hp1; simpl in HMain; [|discriminate].
  destruct (readYml_inv _ _ _ Hp1) as (g & Hg & Hg1 & Hr1 & Hm1).
  pose proof (readYml_masterEnable _ _ _ _ Hg) as Hme.
  pose proof (readYml_constrainHud _ _ _ _ Hg) as Hch.
  rewrite <- Hg1 in Hme, Hch.
  destruct (moviesFix_outcome host p1) as (Gm & _ & Mm & _ & _ & _ & Rm).
  cbv zeta in Gm, Mm, Rm.
  set (pm := Init.moviesFix host p1) in *.
  unfold Init.aspectRatioFix, Init.resolutionFix, Init.hudElementsFix in HMain.
  cbv zeta in HMain.
  match type of HMain with
  | context [Init.injectHook host ?e ?m ?h Init.AspectRatioCallback pm] =>
      destruct (injectHook_hooks host e m h Init.AspectRatioCallback pm)
        as (Ga & Ra & Ha);
      set (pa := Init.injectHook host e m h Init.AspectRatioCallback pm) in *
  end.
  match type of HMain with
  | context [Init.injectHook host ?e ?m ?h Init.ResolutionCallback pa] =>
      destruct (injectHook_hooks host e m h Init.ResolutionCallback pa)
        as (Gb & Rb & Hb);
      set (pb := Init.injectHook host e m h Init.ResolutionCallback pa) in *
  end.
  match type of HMain with
  | context [Init.injectHook host ?e ?m ?h Init.HudElementsCallback pb] =>
      destruct (injectHook_hooks host e m h Init.HudElementsCallback pb)
        as (Gc & Rc & Hc);
      set (pc := Init.injectHook host e m h Init.HudElementsCallback pb) in *
  end.
  injection HMain as _ <-.
  assert (Hempty : Init.mid_hooks pm = []) by (rewrite Mm, Hm1; reflexivity).
  assert (Ega : Init.globals pa = Init.globals p1) by congruence.
  assert (Egb : Init.globals pb = Init.globals p1) by congruence.
  rewrite Ega in Hb. rewrite Egb in Hc. rewrite Gm in Ha.
  rewrite Hme in Ha, Hb, Hc. rewrite Hch in Hc.
  assert (Hread : Init.readFileHook pc <> None ->
                  doc_masterEnable (Init.document host) = true).
  { intros Hne. rewrite Rc, Rb, Ra in Hne.
    destruct (Rm ltac:(rewrite Hr1; exact Hne)) as (Hen & _).
    rewrite <- Hme. exact Hen. }
  assert (Hc' : Init.mid_hooks pc = Init.mid_hooks pb \/
                (doc_masterEnable (Init.document host) = true /\
                 doc_constrainHud_enable (Init.document host) = true) /\
                exists c, Init.mid_hooks pc
                          = Init.mid_hooks pb
                            ++ [ {| Init.hook_address := c;
                                    Init.hook_callback := Init.HudElementsCallback |} ]).
  { destruct Hc as [Hc|(Ec & c & Hc)]; [now left | right].
    apply andb_prop in Ec. split; [exact Ec | now exists c]. }
  clear Hc.
  split; [|split; [|split; [exact Hread|]]].
  - destruct Ha as [Ha|(Ea & a & Ha)], Hb as [Hb|(Eb & b & Hb)],
             Hc' as [Hc|(Ec & c & Hc)];
      rewrite Hc, Hb, Ha, Hempty; simpl;
      repeat (apply NoDup_cons_2;
              [clear; intros Hin;
               repeat (apply elem_of_cons in Hin as [Hin|Hin]; [discriminate Hin|]);
               now apply elem_of_nil in Hin|]);
      apply NoDup_nil_2.
  - destruct Ha as [Ha|(Ea & a & Ha)]; [|intros _; exact Ea].
    destruct Hb as [Hb|(Eb & b & Hb)]; [|intros _; exact Eb].
    destruct Hc' as [Hc|(Ec & c & Hc)]; [|intros _; exact (proj1 Ec)].
    rewrite Hc, Hb, Ha, Hempty. intros Hne. now contradiction Hne.
  - destruct Hc' as [Hc|(Ec & c & Hc)]; [|intros _; exact Ec].
    rewrite Hc.
    destruct Ha as [Ha|(Ea & a & Ha)], Hb as [Hb|(Eb & b & Hb)];
      rewrite Hb, Ha, Hempty; simpl; intuition discriminate.
Qed.

Lemma Main_hooks_are_enabled_witness :
  exists p' : Init.Process,
    Init.Main (Examples.toy_host Examples.doc_auto 0 0)
      (Init.injectHook (Examples.toy_host Examples.doc_auto 0 0))
      (Init.initial_process 0x400000) = Some (1, p') /\
    map Init.hook_callback (Init.mid_hooks p')
    = [Init.AspectRatioCallback; Init.ResolutionCallback].
Proof.
  destruct (Init.Main (Examples.toy_host Examples.doc_auto 0 0)
              (Init.injectHook (Examples.toy_host Examples.doc_auto 0 0))
              (Init.initial_process 0x400000)) as [[r p']|] eqn:HMain;
    [|revert HMain; vm_compute; discriminate].
  pose proof (Main_hooks_are_enabled _ _ _ _ HMain) as (Hnd & _).
  revert HMain Hnd. vm_compute. intros [= <- <-] _.
  eexists. split; reflexivity.
Defined.
